(** * Script Launcher: the execution core of [src/main/main.ts]

    The three executors ([executeJavaScript], [executePython],
    [executeShell]), the IPC handlers ["execute-script"] and
    ["run-command"], and the sandbox helpers [execSync] and [exec], as
    functions over an explicit host: what the spawned child does, the
    order in which Node dispatches its events and the timer callback,
    and what the [vm] evaluation of a script does are inputs of the
    model, never fixed by it. *)

From Stdlib Require Import ZArith List String Ascii Bool Lia Permutation.
From Stdlib Require Import Numbers.DecimalString Numbers.DecimalZ Numbers.DecimalPos.
Import ListNotations.
Open Scope string_scope.

(** ** Text

    A JavaScript string is kept as a Rocq [string], one character per
    code unit.  The separators and literals of the source (line feed,
    double quote, backslash, the prefixes) are all below 128. *)

Module Text.

Definition LF : ascii := "010"%char.
Definition DQUOTE : ascii := "034"%char.
Definition BACKSLASH : ascii := "092"%char.

(** Truthiness of a string in a condition: [if (stdout)], [stderr || ...],
    [.filter((line) => line)]. *)
Definition truthy (s : string) : bool :=
  match s with
  | EmptyString => false
  | String _ _ => true
  end.

(** [a || b] on strings. *)
Definition or_else (a b : string) : string :=
  if truthy a then a else b.

(** [s.split("\n")]: never empty, the pieces hold no line feed. *)
Fixpoint split_LF (s : string) : list string :=
  match s with
  | EmptyString => [EmptyString]
  | String c rest =>
      if Ascii.eqb c LF then EmptyString :: split_LF rest
      else match split_LF rest with
           | [] => [String c EmptyString]
           | piece :: pieces => String c piece :: pieces
           end
  end.

(** [s.split("\n").filter((line) => line)] *)
Definition lines (s : string) : list string :=
  filter truthy (split_LF s).

(** [pieces.join("\n")], the inverse of [split_LF]. *)
Fixpoint join_LF (pieces : list string) : string :=
  match pieces with
  | [] => EmptyString
  | [p] => p
  | p :: rest => p ++ String LF (join_LF rest)
  end.

(** [args.join(" ")] *)
Fixpoint join_space (pieces : list string) : string :=
  match pieces with
  | [] => EmptyString
  | [p] => p
  | p :: rest => p ++ String " " (join_space rest)
  end.

(** White space and line terminators of [String.prototype.trim] among
    the code units below 256: TAB, LF, VT, FF, CR, SP, NBSP. *)
Definition is_white (c : ascii) : bool :=
  let n := nat_of_ascii c in
  (((9 <=? n) && (n <=? 13)) || (n =? 32) || (n =? 160))%nat.

Fixpoint trimStart (s : string) : string :=
  match s with
  | EmptyString => EmptyString
  | String c rest => if is_white c then trimStart rest else s
  end.

Fixpoint trimEnd (s : string) : string :=
  match s with
  | EmptyString => EmptyString
  | String c rest =>
      match trimEnd rest with
      | EmptyString => if is_white c then EmptyString else String c EmptyString
      | kept => String c kept
      end
  end.

(** [s.trim()] *)
Definition trim (s : string) : string := trimEnd (trimStart s).

(** [value.replace(/"/g, '\\"')]: a backslash before every double quote,
    nothing else touched. *)
Fixpoint escape_dquotes (s : string) : string :=
  match s with
  | EmptyString => EmptyString
  | String c rest =>
      if Ascii.eqb c DQUOTE
      then String BACKSLASH (String DQUOTE (escape_dquotes rest))
      else String c (escape_dquotes rest)
  end.

(** An integer inside a template literal. *)
Definition of_Z (z : Z) : string := NilZero.string_of_int (Z.to_int z).

(** [`${exitCode}`]: the child's exit code, [null] when a signal ended it. *)
Definition of_exitCode (exitCode : option Z) : string :=
  match exitCode with
  | Some z => of_Z z
  | None => "null"
  end.

End Text.

(** ** Values and results *)

(** A JavaScript number.  The executors never compute with one: they
    only turn it into text ([`${value}`], [String(value)]), so a number
    is carried by that text ([3], [0.5], [1e+21], [NaN], ...). *)
Record number := Number { Number_toString : string }.

(** A run parameter: [Record<string, string | number>], as
    [Object.entries] lists it. *)
Inductive InputValue :=
| IString (s : string)
| INumber (n : number).

Definition Inputs := list (string * InputValue).

(** [String(value)] on a parameter. *)
Definition String_of_input (v : InputValue) : string :=
  match v with
  | IString s => s
  | INumber n => Number_toString n
  end.

(** What a script can hand to [console.log] or return. *)
Inductive JsValue :=
| VUndefined
| VNull
| VBoolean (b : bool)
| VNumber (n : number)
| VString (s : string)
| VObject (json : string)     (* typeof "object": its JSON.stringify(_, null, 2) *)
| VFunction (source : string) (* typeof "function": its String(_) *).

(** [{ logs: string[]; result: unknown; error?: string }] *)
Record ScriptResult := {
  logs : list string;
  result : JsValue;
  error : option string
}.

(** How the promise an executor returns ends. *)
Inductive Settlement :=
| Resolved (r : ScriptResult)
| Rejected (reason : string)
| Pending.

(** ** Child processes

    [spawn] hands back a child at once; everything afterwards reaches
    the executor as callbacks.  A run is the list of those callbacks in
    the order Node dispatched them, the executor's own [setTimeout]
    callback among them. *)

Inductive ChildEvent :=
| StdoutData (chunk : string)      (* child.stdout.on("data") *)
| StderrData (chunk : string)      (* child.stderr.on("data") *)
| Close (exitCode : option Z)      (* child.on("close"), null after a signal *)
| SpawnError (message : string)    (* child.on("error"), err.message *)
| TimerFired.                      (* the setTimeout callback *)

(** The variables a [new Promise((resolve) => ...)] body closes over.
    [resolve] keeps the first value it is given; the reply leaves for the
    renderer when the promise settles, so [resolved] holds the [logs] of
    that moment. *)
Module Child.
Record state := {
  stdout : string;
  stderr : string;
  logs : list string;
  resolved : option ScriptResult
}.

Definition init : state :=
  {| stdout := EmptyString; stderr := EmptyString; logs := []; resolved := None |}.
End Child.

Definition on_stdout (st : Child.state) (chunk : string) : Child.state :=
  {| Child.stdout := Child.stdout st ++ chunk;
     Child.stderr := Child.stderr st;
     Child.logs := Child.logs st;
     Child.resolved := Child.resolved st |}.

Definition on_stderr (st : Child.state) (chunk : string) : Child.state :=
  {| Child.stdout := Child.stdout st;
     Child.stderr := Child.stderr st ++ chunk;
     Child.logs := Child.logs st;
     Child.resolved := Child.resolved st |}.

(** [logs.push(...)] for each element, in order. *)
Definition push_all (st : Child.state) (entries : list string) : Child.state :=
  {| Child.stdout := Child.stdout st;
     Child.stderr := Child.stderr st;
     Child.logs := Child.logs st ++ entries;
     Child.resolved := Child.resolved st |}.

(** [resolve({ logs, result: undefined, error })]: a no-op once settled. *)
Definition resolve (st : Child.state) (err : option string) : Child.state :=
  match Child.resolved st with
  | Some _ => st
  | None =>
      {| Child.stdout := Child.stdout st;
         Child.stderr := Child.stderr st;
         Child.logs := Child.logs st;
         Child.resolved :=
           Some {| logs := Child.logs st; result := VUndefined; error := err |} |}
  end.

(** [if (stdout) { stdout.split("\n").filter(...).forEach(push) }] *)
Definition collect_stdout (st : Child.state) : Child.state :=
  if Text.truthy (Child.stdout st)
  then push_all st (Text.lines (Child.stdout st))
  else st.

(** [exitCode !== 0] *)
Definition nonzero (exitCode : option Z) : bool :=
  match exitCode with
  | Some z => negb (z =? 0)%Z
  | None => true
  end.

(** *** The Python executor's callbacks *)

Definition python_close (st : Child.state) (exitCode : option Z) : Child.state :=
  let st := collect_stdout st in
  if nonzero exitCode || Text.truthy (Child.stderr st)
  then resolve st
         (Some (Text.or_else (Child.stderr st)
                  ("Process exited with code " ++ Text.of_exitCode exitCode)))
  else resolve st None.

Definition python_on (st : Child.state) (ev : ChildEvent) : Child.state :=
  match ev with
  | StdoutData chunk => on_stdout st chunk
  | StderrData chunk => on_stderr st chunk
  | Close exitCode => python_close st exitCode
  | SpawnError message => resolve st (Some ("Failed to execute Python: " ++ message))
  | TimerFired => resolve st (Some "Script execution timed out (10s)")
  end.

(** *** The shell executor's callbacks, shared in shape by ["run-command"] *)

Definition ERROR_line (line : string) : string := "[ERROR] " ++ line.

Definition shell_close (st : Child.state) (exitCode : option Z) : Child.state :=
  let st := collect_stdout st in
  if nonzero exitCode || Text.truthy (Child.stderr st)
  then
    let st :=
      if Text.truthy (Child.stderr st)
      then push_all st (map ERROR_line (Text.lines (Child.stderr st)))
      else st in
    resolve st
      (if nonzero exitCode
       then Some ("Exit code: " ++ Text.of_exitCode exitCode)
       else None)
  else resolve st None.

Definition shell_on (st : Child.state) (ev : ChildEvent) : Child.state :=
  match ev with
  | StdoutData chunk => on_stdout st chunk
  | StderrData chunk => on_stderr st chunk
  | Close exitCode => shell_close st exitCode
  | SpawnError message => resolve st (Some ("Failed to execute shell: " ++ message))
  | TimerFired => resolve st (Some "Script execution timed out (30s)")
  end.

Definition command_on (st : Child.state) (ev : ChildEvent) : Child.state :=
  match ev with
  | StdoutData chunk => on_stdout st chunk
  | StderrData chunk => on_stderr st chunk
  | Close exitCode => shell_close st exitCode
  | SpawnError message => resolve st (Some ("Failed to execute command: " ++ message))
  | TimerFired => resolve st (Some "Command execution timed out (30s)")
  end.

(** The promise after the callbacks of [events] have run. *)
Definition settle (on : Child.state -> ChildEvent -> Child.state)
    (events : list ChildEvent) : Settlement :=
  match Child.resolved (fold_left on events Child.init) with
  | Some r => Resolved r
  | None => Pending
  end.


(** ** The host

    Everything the executors ask of Node and of the operating system. *)

(** [spawn(file, args, { cwd, env })] after Node has filled in its
    defaults: [env] is [process.env] when the option is left out, [cwd]
    is inherited when [None]. *)
Record SpawnCall := {
  file : string;
  args : list string;
  cwd : option string;
  env : list (string * string)
}.

(** [nodeExecSync(command, options)]: the child's output, or the [Error]
    it throws, with the [stderr] property Node attaches to it when the
    command itself failed. *)
Inductive ExecSyncOutcome :=
| ExecOutput (output : string)
| ExecFailure (message : string) (stderr : option string).

(** A value that reaches a [catch] clause of the main process. *)
Record Thrown := {
  instanceof_Error : bool;       (* error instanceof Error *)
  message : string;              (* error.message, read when it is an Error *)
  String_of : option string      (* String(error); None when the conversion throws *)
}.

(** [new Error(message)] made by the main process. *)
Definition host_Error (msg : string) : Thrown :=
  {| instanceof_Error := true; message := msg; String_of := Some ("Error: " ++ msg) |}.

Module Console.
Inductive method := log | error | warn | info.
End Console.

(** The body of the async arrow function [(async () => { code })()], as
    the statements one run of it executes at its top level. *)
Inductive Stmt :=
| Expr (value : JsValue)                            (* an expression statement *)
| ConsoleCall (m : Console.method) (arguments : list JsValue)
| ExecCall (command : string)                       (* exec(command); *)
| Await (timer_first : bool)
    (* an await; [timer_first]: the executor's timer callback runs before
       the awaited promise settles *)
| Return (value : JsValue)
| Throw (reason : Thrown)
| Spin.                                             (* a loop that never exits *)

(** [new vm.Script(wrappedCode)]: it throws on text that does not parse. *)
Inductive Compiled :=
| SyntaxError (reason : Thrown)
| AsyncBody (body : list Stmt).

Record Host := {
  platform : string;                                   (* process.platform *)
  process_env : list (string * string);                (* process.env *)
  (** the callbacks of one spawned child, up against a timer of so many ms *)
  child_events : SpawnCall -> Z -> list ChildEvent;
  (** command, cwd, timeout in ms *)
  nodeExecSync : string -> option string -> Z -> ExecSyncOutcome;
  (** program text, sandbox bindings of the inputs, timer in ms *)
  vm_Script : string -> Inputs -> Z -> Compiled
}.

Fixpoint lookup (name : string) (vars : list (string * string)) : option string :=
  match vars with
  | [] => None
  | (k, v) :: rest => if String.eqb k name then Some v else lookup name rest
  end.

(** [env[key] = value] *)
Fixpoint assign (vars : list (string * string)) (key value : string)
  : list (string * string) :=
  match vars with
  | [] => [(key, value)]
  | (k, v) :: rest =>
      if String.eqb k key then (k, value) :: rest
      else (k, v) :: assign rest key value
  end.

(** [process.env.HOME || process.env.USERPROFILE] *)
Definition home (h : Host) : option string :=
  match lookup "HOME" (process_env h) with
  | Some dir => if Text.truthy dir then Some dir
                else lookup "USERPROFILE" (process_env h)
  | None => lookup "USERPROFILE" (process_env h)
  end.

(** ** executePython *)

(** [`"${value.replace(/"/g, '\\"')}"`]: the text between the quotes
    included. *)
Definition python_string (s : string) : string :=
  String Text.DQUOTE (Text.escape_dquotes s ++ String Text.DQUOTE EmptyString).

(** One pass of the loop over [Object.entries(inputs)]. *)
Definition python_assignment (entry : string * InputValue) : string :=
  let (key, value) := entry in
  match value with
  | IString s => key ++ " = " ++ python_string s ++ String Text.LF EmptyString
  | INumber n => key ++ " = " ++ Number_toString n ++ String Text.LF EmptyString
  end.

Definition inputCode (inputs : Inputs) : string :=
  fold_left (fun acc entry => acc ++ python_assignment entry) inputs EmptyString.

Definition fullCode (code : string) (inputs : Inputs) : string :=
  inputCode inputs ++ code.

(** [spawn("python3", ["-c", fullCode])] *)
Definition python_spawn (h : Host) (code : string) (inputs : Inputs) : SpawnCall :=
  {| file := "python3"; args := ["-c"; fullCode code inputs];
     cwd := None; env := process_env h |}.

Definition executePython (h : Host) (code : string) (inputs : Inputs) : Settlement :=
  settle python_on (child_events h (python_spawn h code inputs) 10000).

(** ** executeShell and ["run-command"] *)

Definition shell (h : Host) : string :=
  if String.eqb (platform h) "win32" then "cmd.exe" else "/bin/bash".

Definition shellFlag (h : Host) : string :=
  if String.eqb (platform h) "win32" then "/c" else "-c".

(** [{ ...process.env }] with [env[key] = String(value)] for every input. *)
Definition shell_env (h : Host) (inputs : Inputs) : list (string * string) :=
  fold_left (fun vars entry => assign vars (fst entry) (String_of_input (snd entry)))
            inputs (process_env h).

Definition shell_spawn (h : Host) (code : string) (inputs : Inputs) : SpawnCall :=
  {| file := shell h; args := [shellFlag h; code];
     cwd := home h; env := shell_env h inputs |}.

Definition executeShell (h : Host) (code : string) (inputs : Inputs) : Settlement :=
  settle shell_on (child_events h (shell_spawn h code inputs) 30000).

(** No [env] option here: the child gets [process.env]. *)
Definition command_spawn (h : Host) (command : string) : SpawnCall :=
  {| file := shell h; args := [shellFlag h; command];
     cwd := home h; env := process_env h |}.

Definition run_command (h : Host) (command : string) : Settlement :=
  settle command_on (child_events h (command_spawn h command) 30000).

(** ** The sandbox of executeJavaScript *)

(** [typeof arg === "object" ? JSON.stringify(arg, null, 2) : String(arg)] *)
Definition show (arg : JsValue) : string :=
  match arg with
  | VNull => "null"
  | VObject json => json
  | VUndefined => "undefined"
  | VBoolean b => if b then "true" else "false"
  | VNumber n => Number_toString n
  | VString s => s
  | VFunction source => source
  end.

Definition prefix (m : Console.method) : string :=
  match m with
  | Console.log => EmptyString
  | Console.error => "[ERROR] "
  | Console.warn => "[WARN] "
  | Console.info => "[INFO] "
  end.

(** [customConsole[m](...args)]: one more line. *)
Definition customConsole (m : Console.method) (arguments : list JsValue)
    (logs : list string) : list string :=
  (logs ++ [(prefix m ++ Text.join_space (map show arguments))%string])%list.

(** The top-level [execSync]: trimmed output, or a throw. *)
Definition execSync (h : Host) (command : string) : string + Thrown :=
  match nodeExecSync h command (home h) 30000 with
  | ExecOutput output => inl (Text.trim output)
  | ExecFailure msg (Some err) =>
      inr (host_Error (Text.or_else err ("Error: " ++ msg)))
  | ExecFailure msg None => inr (host_Error msg)
  end.

(** The sandbox's [exec]: what it returns or throws, and [logs] after it. *)
Definition exec (h : Host) (command : string) (logs : list string)
  : (string + Thrown) * list string :=
  match execSync h command with
  | inl output => (inl output, if Text.truthy output then (logs ++ [output])%list else logs)
  | inr e => (inr e, logs)
  end.

(** How the [try] block goes: the race is won by the evaluation
    ([Fulfils], or [Raises] for a rejection or a throw on the way), or
    by the timer, or is never reached. *)
Inductive Attempt :=
| Fulfils (value : JsValue) (logs : list string)
| Raises (reason : Thrown) (logs : list string)
| TimerWins (logs : list string)
| Blocks.   (* the evaluation never hands control back: no callback runs *)

Fixpoint run_body (h : Host) (body : list Stmt) (logs : list string) : Attempt :=
  match body with
  | [] => Fulfils VUndefined logs
  | Expr _ :: rest => run_body h rest logs
  | ConsoleCall m arguments :: rest => run_body h rest (customConsole m arguments logs)
  | ExecCall command :: rest =>
      match exec h command logs with
      | (inl _, logs) => run_body h rest logs
      | (inr e, logs) => Raises e logs
      end
  | Await true :: _ => TimerWins logs
  | Await false :: rest => run_body h rest logs
  | Return value :: _ => Fulfils value logs
  | Throw reason :: _ => Raises reason logs
  | Spin :: _ => Blocks
  end.

Definition wrappedCode (code : string) : string :=
  "(async () => { " ++ code ++ " })()".

(** The [catch (error)] clause. *)
Definition caught (e : Thrown) (logs : list string) : Settlement :=
  match (if instanceof_Error e then Some (message e) else String_of e) with
  | Some text => Resolved {| logs := logs; result := VUndefined; error := Some text |}
  | None => Rejected "TypeError: Cannot convert object to primitive value"
  end.

Definition timeout_Error : Thrown := host_Error "Script execution timed out (10s)".

(** [vm.createContext], [new vm.Script], [runInContext] and the race. *)
Definition try_block (h : Host) (code : string) (inputs : Inputs) : Attempt :=
  match vm_Script h (wrappedCode code) inputs 10000 with
  | SyntaxError reason => Raises reason []
  | AsyncBody body => run_body h body []
  end.

Definition executeJavaScript (h : Host) (code : string) (inputs : Inputs) : Settlement :=
  match try_block h code inputs with
  | Fulfils value logs => Resolved {| logs := logs; result := value; error := None |}
  | Raises reason logs => caught reason logs
  | TimerWins logs => caught timeout_Error logs
  | Blocks => Pending
  end.

(** ** ipcMain.handle("execute-script") *)

Definition is_tag (language : option string) (tag : string) : bool :=
  match language with
  | Some l => String.eqb l tag
  | None => false
  end.

Definition execute_script (h : Host) (code : string) (inputs : Inputs)
    (language : option string) : Settlement :=
  if is_tag language "python" then executePython h code inputs
  else if is_tag language "shell" then executeShell h code inputs
  else executeJavaScript h code inputs.

(** ** Reading a run

    The vocabulary of the statements below: which callback settled a
    child's promise and with what output gathered, how far a script
    body got, and what the Python interpreter makes of a quoted value. *)

(** The first close, error or timer callback of a run, with the text the
    data callbacks had gathered before it. *)
Inductive Outcome :=
| Closed (exitCode : option Z) (out err : string)
| Failed (message : string)
| TimedOut
| Unsettled.

Fixpoint outcome_from (events : list ChildEvent) (out err : string) : Outcome :=
  match events with
  | [] => Unsettled
  | StdoutData chunk :: rest => outcome_from rest (out ++ chunk) err
  | StderrData chunk :: rest => outcome_from rest out (err ++ chunk)
  | Close exitCode :: _ => Closed exitCode out err
  | SpawnError message :: _ => Failed message
  | TimerFired :: _ => TimedOut
  end.

Definition outcome (events : list ChildEvent) : Outcome :=
  outcome_from events EmptyString EmptyString.

Definition python_run (h : Host) (code : string) (inputs : Inputs) : Outcome :=
  outcome (child_events h (python_spawn h code inputs) 10000).

Definition shell_run (h : Host) (code : string) (inputs : Inputs) : Outcome :=
  outcome (child_events h (shell_spawn h code inputs) 30000).

Definition command_run (h : Host) (command : string) : Outcome :=
  outcome (child_events h (command_spawn h command) 30000).

(** A child run that did not complete successfully: a non-zero exit,
    anything on standard error, a spawn failure or a timeout. *)
Definition unsuccessful (o : Outcome) : Prop :=
  match o with
  | Closed exitCode _ err => exitCode <> Some 0%Z \/ err <> EmptyString
  | Failed _ => True
  | TimedOut => True
  | Unsettled => False
  end.

(** The same without the standard-error clause. *)
Definition unsuccessful_exit (o : Outcome) : Prop :=
  match o with
  | Closed exitCode _ _ => exitCode <> Some 0%Z
  | Failed _ => True
  | TimedOut => True
  | Unsettled => False
  end.

(** A JavaScript run that did not complete successfully: a throw, a
    rejection or the timeout. *)
Definition unsuccessful_js (a : Attempt) : Prop :=
  match a with
  | Fulfils _ _ => False
  | Raises _ _ => True
  | TimerWins _ => True
  | Blocks => False
  end.


(** The statements of [pre] all run and control reaches what follows
    them: the [logs] at that point.  [None] when one of them ends or
    suspends the evaluation for good. *)
Fixpoint falls_through (h : Host) (pre : list Stmt) (logs : list string)
  : option (list string) :=
  match pre with
  | [] => Some logs
  | Expr _ :: rest => falls_through h rest logs
  | ConsoleCall m arguments :: rest =>
      falls_through h rest (customConsole m arguments logs)
  | ExecCall command :: rest =>
      match exec h command logs with
      | (inl _, logs) => falls_through h rest logs
      | (inr _, _) => None
      end
  | Await false :: rest => falls_through h rest logs
  | _ => None
  end.


(** *** A double-quoted Python string literal

    The short-string rule of the Python lexer for a literal without
    prefix: it ends at the first unescaped double quote, may not hold a
    line end, and a backslash takes the next character with it. *)
Module Python.

Inductive Lexed :=
| Literal (value rest : string)   (* the value, and the text after the closing quote *)
| Broken                          (* a line end or the end of input inside the literal *)
| Unmodelled.                     (* an escape that takes more than one character *)

Definition one (n : nat) : option string :=
  Some (String (ascii_of_nat n) EmptyString).

(** The character after a backslash. *)
Definition escape (c : ascii) : option string :=
  let n := nat_of_ascii c in
  if (n =? 10)%nat then Some EmptyString                 (* line continuation *)
  else if (n =? 92)%nat then one 92
  else if (n =? 34)%nat then one 34
  else if (n =? 39)%nat then one 39
  else if (n =? 97)%nat then one 7
  else if (n =? 98)%nat then one 8
  else if (n =? 102)%nat then one 12
  else if (n =? 110)%nat then one 10
  else if (n =? 114)%nat then one 13
  else if (n =? 116)%nat then one 9
  else if (n =? 118)%nat then one 11
  else if ((48 <=? n) && (n <=? 55))%nat then None       (* octal *)
  else if ((n =? 120) || (n =? 78) || (n =? 117) || (n =? 85))%nat
       then None                                         (* \x \N \u \U *)
  else Some (String Text.BACKSLASH (String c EmptyString)).

Definition prepend (s : string) (l : Lexed) : Lexed :=
  match l with
  | Literal value rest => Literal (s ++ value) rest
  | other => other
  end.

(** From the character after the opening quote. *)
Fixpoint string_body (s : string) : Lexed :=
  match s with
  | EmptyString => Broken
  | String c rest =>
      if Ascii.eqb c Text.DQUOTE then Literal EmptyString rest
      else if Ascii.eqb c Text.LF then Broken
      else if Ascii.eqb c Text.BACKSLASH then
        match rest with
        | EmptyString => Broken
        | String e rest' =>
            match escape e with
            | Some decoded => prepend decoded (string_body rest')
            | None => Unmodelled
            end
        end
      else prepend (String c EmptyString) (string_body rest)
  end.

(** The value of [text] when it is exactly one string literal. *)
Definition quoted (text : string) : option string :=
  match text with
  | String c body =>
      if Ascii.eqb c Text.DQUOTE then
        match string_body body with
        | Literal value EmptyString => Some value
        | _ => None
        end
      else None
  | EmptyString => None
  end.

End Python.

(** ** Hosts for the examples *)

(** A Linux machine on which the child of the run behaves as [events]
    and the script compiles to [script]. *)
Definition a_host (events : list ChildEvent) (script : Compiled) : Host :=
  {| platform := "linux";
     process_env := [("HOME", "/home/user")];
     child_events := fun _ _ => events;
     nodeExecSync := fun _ _ _ => ExecOutput EmptyString;
     vm_Script := fun _ _ _ => script |}.

Definition line (s : string) : string := s ++ String Text.LF EmptyString.

(** [echo warn >&2]: exit code 0, one line on standard error. *)
Definition warns : Host :=
  a_host [StderrData (line "warn"); Close (Some 0%Z); TimerFired] (AsyncBody []).

(** [echo oops >&2; exit 1] *)
Definition fails_loudly : Host :=
  a_host [StderrData (line "oops"); Close (Some 1%Z); TimerFired] (AsyncBody []).

(** [echo 7] *)
Definition prints_seven : Host :=
  a_host [StdoutData (line "7"); Close (Some 0%Z); TimerFired] (AsyncBody []).

(** [sleep 60]: the timer comes first, the killed child closes after it. *)
Definition sleeps : Host :=
  a_host [TimerFired; Close None] (AsyncBody [Await true]).

(** [while (true) {}] *)
Definition spins : Host :=
  a_host [Close (Some 0%Z); TimerFired] (AsyncBody [Spin]).





(** [1 + 2] *)
Definition adds : Host :=
  a_host [Close (Some 0%Z); TimerFired] (AsyncBody [Expr (VNumber (Number "3"))]).

(** [console.log("x"); await sleep(20000); console.log("late")] *)
Definition logs_then_waits : Host :=
  a_host [TimerFired]
    (AsyncBody [ConsoleCall Console.log [VString "x"]; Await true;
                ConsoleCall Console.log [VString "late"]]).


(** A machine whose [exec] commands all print [" hi "] and a line end. *)
Definition says_hi : Host :=
  {| platform := "linux";
     process_env := [("HOME", "/home/user")];
     child_events := fun _ _ => [Close (Some 0%Z); TimerFired];
     nodeExecSync := fun _ _ _ => ExecOutput (line " hi ");
     vm_Script := fun _ _ _ => AsyncBody [ExecCall "echo ' hi '"] |}.

(** What each subprocess entry point makes of an outcome. *)
Definition done (lines : list string) (err : option string) : Settlement :=
  Resolved {| logs := lines; result := VUndefined; error := err |}.

Definition python_policy (o : Outcome) : Settlement :=
  match o with
  | Closed exitCode out err =>
      done (Text.lines out)
           (if nonzero exitCode || Text.truthy err
            then Some (Text.or_else err
                         ("Process exited with code " ++ Text.of_exitCode exitCode))
            else None)
  | Failed msg => done [] (Some ("Failed to execute Python: " ++ msg))
  | TimedOut => done [] (Some "Script execution timed out (10s)")
  | Unsettled => Pending
  end.

Definition shell_close_policy (exitCode : option Z) (out err : string) : Settlement :=
  done (Text.lines out ++ map ERROR_line (Text.lines err))
       (if nonzero exitCode
        then Some ("Exit code: " ++ Text.of_exitCode exitCode)
        else None).

Definition shell_policy (o : Outcome) : Settlement :=
  match o with
  | Closed exitCode out err => shell_close_policy exitCode out err
  | Failed msg => done [] (Some ("Failed to execute shell: " ++ msg))
  | TimedOut => done [] (Some "Script execution timed out (30s)")
  | Unsettled => Pending
  end.

Definition command_policy (o : Outcome) : Settlement :=
  match o with
  | Closed exitCode out err => shell_close_policy exitCode out err
  | Failed msg => done [] (Some ("Failed to execute command: " ++ msg))
  | TimedOut => done [] (Some "Command execution timed out (30s)")
  | Unsettled => Pending
  end.


(** A callback table under the resolve-once guard: a settled promise
    keeps its value. *)
Definition keeps_first (on : Child.state -> ChildEvent -> Child.state) : Prop :=
  forall st ev r, Child.resolved st = Some r -> Child.resolved (on st ev) = Some r.

(** The first, the last character of the text is white space. *)
Definition starts_white (s : string) : bool :=
  match s with
  | EmptyString => false
  | String c _ => Text.is_white c
  end.

Fixpoint ends_white (s : string) : bool :=
  match s with
  | EmptyString => false
  | String c EmptyString => Text.is_white c
  | String _ rest => ends_white rest
  end.

(** The text holds neither a backslash nor a line feed. *)
Fixpoint plain (s : string) : bool :=
  match s with
  | EmptyString => true
  | String c rest =>
      negb (Ascii.eqb c Text.BACKSLASH) && negb (Ascii.eqb c Text.LF) && plain rest
  end.

(** The two characters backslash, double quote. *)
Definition backslash_quote : string :=
  String Text.BACKSLASH (String Text.DQUOTE EmptyString).

(** ** The spec's sentences, as written

    Each is a statement about one run; the theorems below say which of
    them hold on every run and where the others fail. *)

(** "error is set if and only if the run did not complete successfully",
    standard error counted as a failure for every executor. *)
Definition claimed_error_invariant
    (h : Host) (code : string) (inputs : Inputs) : Prop :=
  (forall r, executeJavaScript h code inputs = Resolved r ->
             (error r <> None <-> unsuccessful_js (try_block h code inputs))) /\
  (forall r, executePython h code inputs = Resolved r ->
             (error r <> None <-> unsuccessful (python_run h code inputs))) /\
  (forall r, executeShell h code inputs = Resolved r ->
             (error r <> None <-> unsuccessful (shell_run h code inputs))).

(** "error message is the exit-code description when standard-error was
    empty, otherwise left unset". *)
Definition claimed_shell_failure_policy
    (h : Host) (code : string) (inputs : Inputs) : Prop :=
  forall exitCode out err r,
    shell_run h code inputs = Closed exitCode out err ->
    executeShell h code inputs = Resolved r ->
    logs r = (Text.lines out ++ map ERROR_line (Text.lines err))%list /\
    (unsuccessful (Closed exitCode out err) ->
     (error r = Some ("Exit code: " ++ Text.of_exitCode exitCode)
      <-> err = EmptyString) /\
     (err <> EmptyString -> error r = None)).


(** "shares this exact behavior". *)
Definition claimed_command_same_as_shell (h : Host) (command : string) : Prop :=
  run_command h command = executeShell h command [].



(** "escaping round-trips correctly": the interpreter reads the emitted
    literal back as the value. *)
Definition claimed_quoting_round_trips (value : string) : Prop :=
  Python.quoted (python_string value) = Some value.

(** ** More vocabulary for the runs *)

(** A data callback. *)
Definition is_data (ev : ChildEvent) : bool :=
  match ev with
  | StdoutData _ => true
  | StderrData _ => true
  | _ => false
  end.

(** What the stdout, the stderr callbacks of [events] add up to. *)
Fixpoint stdout_of (events : list ChildEvent) : string :=
  match events with
  | [] => EmptyString
  | StdoutData chunk :: rest => chunk ++ stdout_of rest
  | _ :: rest => stdout_of rest
  end.

Fixpoint stderr_of (events : list ChildEvent) : string :=
  match events with
  | [] => EmptyString
  | StderrData chunk :: rest => chunk ++ stderr_of rest
  | _ :: rest => stderr_of rest
  end.




(** ** The renderer's side of a run: [executeScript] in [App.tsx] *)

(** [!res.error] *)
Definition no_error (res : ScriptResult) : bool :=
  match error res with
  | None => true
  | Some text => negb (Text.truthy text)
  end.

(** [res.logs.length === 0 && !res.error]: the window is hidden half a
    second after such a result. *)
Definition hides_window (res : ScriptResult) : bool :=
  (List.length (logs res) =? 0)%nat && no_error res.

(** [for i in range(3): print(i); time.sleep(9)]: two lines, then the
    timer, then the close of the killed child. *)
Definition prints_then_hangs : Host :=
  a_host [StdoutData (line "0"); StdoutData (line "1"); TimerFired; Close None]
         (AsyncBody []).

(** [console.log("go"); exec("ls /nope"); console.log("after")] on a
    machine where the command fails. *)
Definition exec_fails : Host :=
  {| platform := "linux";
     process_env := [("HOME", "/home/user")];
     child_events := fun _ _ => [Close (Some 0%Z); TimerFired];
     nodeExecSync := fun _ _ _ =>
       ExecFailure "Command failed: ls /nope" (Some (line "ls: /nope: No such file"));
     vm_Script := fun _ _ _ =>
       AsyncBody [ConsoleCall Console.log [VString "go"]; ExecCall "ls /nope";
                  ConsoleCall Console.log [VString "after"]] |}.

(** ** The launcher window: [showWindow], [hideWindow], [toggleWindow],
    [openSettings] *)

Module Window.

(** What the main process asks of its window, in order. *)
Inductive command :=
| setPosition (x y : Z)
| show
| focus
| hide
| send (channel : string)
| setSize (width height : Z).

(** [mainWindow] (there, or null) and [isVisible]. *)
Record state := { mainWindow : bool; isVisible : bool }.

(** What [showWindow] reads: the work area of the display under the
    cursor and [windowWidth] of the settings, in whole pixels. *)
Record screen := { x : Z; y : Z; width : Z; windowWidth : Z }.

(** What reaches the window handlers of the main process. *)
Inductive event :=
| Toggle (sc : screen)        (* the global shortcut, a click on the tray icon *)
| OpenSettings (sc : screen)  (* the tray's Settings item, ipc "open-settings" *)
| HideRequest                 (* ipc "hide-window", the window's "blur" *)
| Closed                      (* mainWindow.on("closed") *)
| Activate.                   (* app.on("activate") *)

End Window.

(** [Math.floor(x + (width - settings.windowWidth) / 2)] and [y + 50] *)
Definition windowX (sc : Window.screen) : Z :=
  (Window.x sc + (Window.width sc - Window.windowWidth sc) / 2)%Z.

Definition windowY (sc : Window.screen) : Z := (Window.y sc + 50)%Z.

Definition showWindow (sc : Window.screen) (st : Window.state)
  : Window.state * list Window.command :=
  if Window.mainWindow st
  then ({| Window.mainWindow := true; Window.isVisible := true |},
        [Window.setPosition (windowX sc) (windowY sc); Window.show; Window.focus;
         Window.send "window-shown"])
  else (st, []).

Definition hideWindow (st : Window.state) : Window.state * list Window.command :=
  if Window.mainWindow st && Window.isVisible st
  then ({| Window.mainWindow := true; Window.isVisible := false |},
        [Window.hide; Window.send "window-hidden"])
  else (st, []).

Definition toggleWindow (sc : Window.screen) (st : Window.state)
  : Window.state * list Window.command :=
  if Window.isVisible st then hideWindow st else showWindow sc st.

Definition openSettings (sc : Window.screen) (st : Window.state)
  : Window.state * list Window.command :=
  if Window.mainWindow st
  then let (st', shown) :=
         if negb (Window.isVisible st) then showWindow sc st else (st, []) in
       (st', (shown ++ [Window.send "toggle-settings"])%list)
  else (st, []).

(** [createWindow] as far as these variables go: a new window, not shown. *)
Definition createWindow (st : Window.state) : Window.state :=
  {| Window.mainWindow := true; Window.isVisible := Window.isVisible st |}.

Definition window_on (st : Window.state) (ev : Window.event)
  : Window.state * list Window.command :=
  match ev with
  | Window.Toggle sc => toggleWindow sc st
  | Window.OpenSettings sc => openSettings sc st
  | Window.HideRequest => hideWindow st
  | Window.Closed =>
      ({| Window.mainWindow := false; Window.isVisible := Window.isVisible st |}, [])
  | Window.Activate =>
      (* BrowserWindow.getAllWindows().length === 0: the one window is gone *)
      (if Window.mainWindow st then st else createWindow st, [])
  end.

(** The events one after the other, and all the commands they caused. *)
Fixpoint window_run (events : list Window.event) (st : Window.state)
  : Window.state * list Window.command :=
  match events with
  | [] => (st, [])
  | ev :: rest =>
      let (st1, first) := window_on st ev in
      let (st2, others) := window_run rest st1 in
      (st2, (first ++ others)%list)
  end.

(** The "window-shown" ([true]) and "window-hidden" ([false]) messages
    among the commands. *)
Fixpoint notices (commands : list Window.command) : list bool :=
  match commands with
  | [] => []
  | Window.send channel :: rest =>
      if String.eqb channel "window-shown" then true :: notices rest
      else if String.eqb channel "window-hidden" then false :: notices rest
      else notices rest
  | _ :: rest => notices rest
  end.

(** Each notice is the opposite of the one before, the first one the
    opposite of [visible]. *)
Fixpoint alternates (visible : bool) (l : list bool) : Prop :=
  match l with
  | [] => True
  | b :: rest => b = negb visible /\ alternates b rest
  end.

(** The renderer's view, [viewMode] of [App.tsx]. *)
Inductive ViewMode :=
| list_view | edit_view | input_view | result_view | preview_view | settings_view.

(** The listeners [App] registers through the preload script:
    [onWindowShown] sets the list view, [onToggleSettings] flips between
    the settings and the list, [onWindowHidden] leaves the view alone. *)
Definition renderer_on (view : ViewMode) (channel : string) : ViewMode :=
  if String.eqb channel "window-shown" then list_view
  else if String.eqb channel "toggle-settings" then
    match view with
    | settings_view => list_view
    | _ => settings_view
    end
  else view.

Fixpoint channels (commands : list Window.command) : list string :=
  match commands with
  | [] => []
  | Window.send channel :: rest => channel :: channels rest
  | _ :: rest => channels rest
  end.

(** The view after the renderer has handled the messages sent to it. *)
Definition view_after (commands : list Window.command) (view : ViewMode) : ViewMode :=
  fold_left renderer_on (channels commands) view.

(** ** Settings and the global shortcut: [loadSettings], [saveSettings],
    [registerGlobalShortcut], ipc "save-settings" *)

(** [interface AppSettings]; the sizes in whole pixels. *)
Record AppSettings := {
  shortcut : string;
  windowWidth : Z;
  windowHeight : Z
}.

(** [Partial<AppSettings>]: [None] for a key that is not there. *)
Record PartialSettings := {
  shortcut_opt : option string;
  windowWidth_opt : option Z;
  windowHeight_opt : option Z
}.

Definition DEFAULT_SETTINGS : AppSettings :=
  {| shortcut := "Alt+Space"; windowWidth := 800; windowHeight := 450 |}.

Definition or_default {A} (o : option A) (d : A) : A :=
  match o with
  | Some a => a
  | None => d
  end.

(** [{ ...base, ...over }] *)
Definition spread (base : AppSettings) (over : PartialSettings) : AppSettings :=
  {| shortcut := or_default (shortcut_opt over) (shortcut base);
     windowWidth := or_default (windowWidth_opt over) (windowWidth base);
     windowHeight := or_default (windowHeight_opt over) (windowHeight base) |}.

Definition complete (s : AppSettings) : PartialSettings :=
  {| shortcut_opt := Some (shortcut s);
     windowWidth_opt := Some (windowWidth s);
     windowHeight_opt := Some (windowHeight s) |}.

(** [JSON.parse] on the text of the settings file ([None]: it throws)
    and [JSON.stringify(_, null, 2)] on settings. *)
Record Json := {
  parse : string -> option PartialSettings;
  stringify : AppSettings -> string
}.

(** The settings file: its text, [None] while it does not exist. *)
Definition loadSettings (json : Json) (file : option string) : AppSettings :=
  match file with
  | Some data =>
      match parse json data with
      | Some parsed => spread DEFAULT_SETTINGS parsed
      | None => DEFAULT_SETTINGS
      end
  | None => DEFAULT_SETTINGS
  end.

(** The file after [saveSettings(settings)]; [writable]: [writeFileSync]
    does not throw. *)
Definition saveSettings (json : Json) (writable : bool) (settings : PartialSettings)
    (file : option string) : option string :=
  let current := loadSettings json file in
  let updated := spread current settings in
  if writable then Some (stringify json updated) else file.

(** What [globalShortcut.register] does with an accelerator. *)
Inductive Registration := Accepted | Refused | Throws.

(** The shortcuts the launcher holds, and [currentShortcut]. *)
Record Shortcuts := {
  registered : list string;
  currentShortcut : string
}.

(** The returned boolean ([None]: the call threw) and the state after. *)
Definition registerGlobalShortcut (os : string -> Registration) (wanted : string)
    (st : Shortcuts) : option bool * Shortcuts :=
  (* globalShortcut.unregisterAll() comes first *)
  match os wanted with
  | Accepted => (Some true, {| registered := [wanted]; currentShortcut := wanted |})
  | _ =>
      if negb (String.eqb wanted "Alt+Space")
      then match os "Alt+Space" with
           | Accepted =>
               (Some false,
                {| registered := ["Alt+Space"]; currentShortcut := "Alt+Space" |})
           | Refused =>
               (Some false, {| registered := []; currentShortcut := "Alt+Space" |})
           | Throws => (None, {| registered := []; currentShortcut := currentShortcut st |})
           end
      else (Some false, {| registered := []; currentShortcut := currentShortcut st |})
  end.

(** [settings.windowWidth || settings.windowHeight] *)
Definition asks_size (settings : PartialSettings) : bool :=
  match windowWidth_opt settings with
  | Some w => negb (w =? 0)%Z
  | None => false
  end
  || match windowHeight_opt settings with
     | Some h => negb (h =? 0)%Z
     | None => false
     end.

(** The state the "save-settings" handler works on. *)
Record Main := {
  shortcuts : Shortcuts;
  settings_file : option string;
  has_window : bool
}.

(** The handler's argument always names a shortcut. *)
Definition save_settings (os : string -> Registration) (json : Json) (writable : bool)
    (wanted : string) (width height : option Z) (m : Main)
  : option bool * Main * list Window.command :=
  let settings :=
    {| shortcut_opt := Some wanted; windowWidth_opt := width;
       windowHeight_opt := height |} in
  let (success, sc) := registerGlobalShortcut os wanted (shortcuts m) in
  match success with
  | Some true =>
      let file := saveSettings json writable settings (settings_file m) in
      let m' := {| shortcuts := sc; settings_file := file; has_window := has_window m |} in
      if has_window m && asks_size settings
      then let current := loadSettings json file in
           (Some true, m',
            [Window.setSize (windowWidth current) (windowHeight current)])
      else (Some true, m', [])
  | other =>
      (other,
       {| shortcuts := sc; settings_file := settings_file m;
          has_window := has_window m |}, [])
  end.

(** A format for the examples: one text, read back as [s]. *)
Definition one_text (s : AppSettings) : Json :=
  {| parse := fun data => if String.eqb data "saved" then Some (complete s) else None;
     stringify := fun _ => "saved" |}.

(** ** The script store: [useScriptStore], and the drag-and-drop handler
    of [App.tsx] *)

Module Store.

(** [interface ScriptInput] *)
Inductive input_type := string_type | number_type.

Record ScriptInput := {
  input_name : string;
  type : input_type;
  label : string;
  defaultValue : option InputValue
}.

(** [interface Script] *)
Record Script := {
  script_id : string;
  script_name : string;
  code : string;
  language : string;
  inputs : list ScriptInput;
  script_createdAt : Z;
  updatedAt : Z
}.

(** [interface Folder] *)
Record Folder := {
  folder_id : string;
  folder_name : string;
  parentId : option string;
  folder_createdAt : Z
}.

(** [interface AppState]; [scriptFolderMap] holds a folder id or null
    under the ids of some scripts. *)
Record AppState := {
  scripts : list Script;
  folders : list Folder;
  scriptFolderMap : list (string * option string)
}.

Inductive position := before | after.

End Store.

(** [map[key]]: the value under [key], if the key is there. *)
Fixpoint get_key {V} (key : string) (map : list (string * V)) : option V :=
  match map with
  | [] => None
  | (k, v) :: rest => if String.eqb k key then Some v else get_key key rest
  end.

(** [{ ...map, [key]: value }] *)
Fixpoint set_key {V} (map : list (string * V)) (key : string) (value : V)
  : list (string * V) :=
  match map with
  | [] => [(key, value)]
  | (k, v) :: rest =>
      if String.eqb k key then (k, value) :: rest
      else (k, v) :: set_key rest key value
  end.

(** [ids.includes(x)], [set.has(x)] *)
Definition includes (ids : list string) (x : string) : bool :=
  existsb (String.eqb x) ids.

(** [new Map(items.map((s) => [s.id, s])).get(key)]: of two items under
    one id the later one is kept. *)
Definition Map_get {T} (id_of : T -> string) (items : list T) (key : string) : option T :=
  find (fun s => String.eqb (id_of s) key) (rev items).

(** The body of [reorderScripts] and of [reorderFolders]: the items
    named by [ids], in that order, then the others as they were. *)
Definition reorder {T} (id_of : T -> string) (ids : list string) (items : list T)
  : list T :=
  let reordered :=
    flat_map (fun key => match Map_get id_of items key with
                         | Some s => [s]
                         | None => []
                         end) ids in
  let remaining := filter (fun s => negb (includes ids (id_of s))) items in
  (reordered ++ remaining)%list.

Definition reorderScripts (scriptIds : list string) (prev : Store.AppState)
  : Store.AppState :=
  {| Store.scripts := reorder Store.script_id scriptIds (Store.scripts prev);
     Store.folders := Store.folders prev;
     Store.scriptFolderMap := Store.scriptFolderMap prev |}.

Definition reorderFolders (folderIds : list string) (prev : Store.AppState)
  : Store.AppState :=
  {| Store.scripts := Store.scripts prev;
     Store.folders := reorder Store.folder_id folderIds (Store.folders prev);
     Store.scriptFolderMap := Store.scriptFolderMap prev |}.

(** [order.indexOf(x)], [None] for -1. *)
Fixpoint indexOf (x : string) (order : list string) : option nat :=
  match order with
  | [] => None
  | y :: rest =>
      if String.eqb y x then Some O
      else match indexOf x rest with
           | Some i => Some (S i)
           | None => None
           end
  end.

(** [order.splice(i, 1)] and [order.splice(i, 0, x)], as the array they
    leave. *)
Definition splice_out (i : nat) (order : list string) : list string :=
  (firstn i order ++ skipn (S i) order)%list.

Definition splice_in (i : nat) (x : string) (order : list string) : list string :=
  (firstn i order ++ x :: skipn i order)%list.

(** The new order [handleReorderItems] computes from the current one;
    [None] when it returns early. *)
Definition newOrder (currentOrder : list string) (dragId dropId : string)
    (pos : Store.position) : option (list string) :=
  match indexOf dragId currentOrder, indexOf dropId currentOrder with
  | Some dragIndex, Some dropIndex =>
      let removed := splice_out dragIndex currentOrder in
      let insertIndex :=
        match pos with
        | Store.before => dropIndex
        | Store.after => (dropIndex + 1)%nat
        end in
      Some (splice_in (if (dragIndex <? insertIndex)%nat
                       then (insertIndex - 1)%nat else insertIndex)
                      dragId removed)
  | _, _ => None
  end.




(** [scripts.findIndex((s) => s.id === key)] *)
Fixpoint findIndex (key : string) (items : list Store.Script) : option nat :=
  match items with
  | [] => None
  | s :: rest =>
      if String.eqb (Store.script_id s) key then Some O
      else match findIndex key rest with
           | Some i => Some (S i)
           | None => None
           end
  end.

Definition moveScriptToFolderAtPosition (scriptId : string) (folderId : option string)
    (targetScriptId : string) (pos : Store.position) (prev : Store.AppState)
  : Store.AppState :=
  let newScriptFolderMap := set_key (Store.scriptFolderMap prev) scriptId folderId in
  match find (fun s => String.eqb (Store.script_id s) scriptId) (Store.scripts prev) with
  | None => prev
  | Some movingScript =>
      let scriptsWithoutMoving :=
        filter (fun s => negb (String.eqb (Store.script_id s) scriptId))
               (Store.scripts prev) in
      match findIndex targetScriptId scriptsWithoutMoving with
      | None =>
          {| Store.scripts := (scriptsWithoutMoving ++ [movingScript])%list;
             Store.folders := Store.folders prev;
             Store.scriptFolderMap := newScriptFolderMap |}
      | Some targetIndex =>
          let insertIndex :=
            match pos with
            | Store.before => targetIndex
            | Store.after => (targetIndex + 1)%nat
            end in
          {| Store.scripts :=
               (firstn insertIndex scriptsWithoutMoving
                  ++ movingScript :: skipn insertIndex scriptsWithoutMoving)%list;
             Store.folders := Store.folders prev;
             Store.scriptFolderMap := newScriptFolderMap |}
      end
  end.

(** The two items next to each other, as the drop asked. *)
Definition side_by_side {T} (pos : Store.position) (moved target : T) : list T :=
  match pos with
  | Store.before => [moved; target]
  | Store.after => [target; moved]
  end.

(** Three scripts for the examples. *)
Definition a_script (id name : string) : Store.Script :=
  {| Store.script_id := id; Store.script_name := name; Store.code := EmptyString;
     Store.language := "shell"; Store.inputs := []; Store.script_createdAt := 0;
     Store.updatedAt := 0 |}.

Definition three_scripts : Store.AppState :=
  {| Store.scripts := [a_script "a" "Build"; a_script "b" "Deploy"; a_script "c" "Test"];
     Store.folders := [];
     Store.scriptFolderMap := [("b", None)] |}.


(** *** [deleteFolder] *)

(** One turn of the [forEach] inside the [while]: the set so far and
    [changed]. *)
Definition mark_child (acc : list string * bool) (folder : Store.Folder)
  : list string * bool :=
  let (set, changed) := acc in
  match Store.parentId folder with
  | Some parent =>
      if Text.truthy parent && includes set parent
         && negb (includes set (Store.folder_id folder))
      then ((set ++ [Store.folder_id folder])%list, true)
      else acc
  | None => acc
  end.

(** The [while (changed)] loop, with passes to spare counted by [fuel]:
    every pass that changes something adds a folder, so the folders
    themselves bound the passes. *)
Fixpoint mark_descendants (fuel : nat) (folders : list Store.Folder)
    (set : list string) : list string :=
  let (set', changed) := fold_left mark_child folders (set, false) in
  if changed
  then match fuel with
       | S fuel' => mark_descendants fuel' folders set'
       | O => set'
       end
  else set'.

Definition folderIdsToDelete (id : string) (prev : Store.AppState) : list string :=
  mark_descendants (List.length (Store.folders prev)) (Store.folders prev) [id].

(** [if (folderId === id) newScriptFolderMap[scriptId] = null] *)
Definition unfile (id : string) (entry : string * option string)
  : string * option string :=
  match snd entry with
  | Some folderId => if String.eqb folderId id then (fst entry, None) else entry
  | None => entry
  end.

Definition deleteFolder (id : string) (prev : Store.AppState) : Store.AppState :=
  {| Store.scripts := Store.scripts prev;
     Store.folders :=
       filter (fun f => negb (includes (folderIdsToDelete id prev) (Store.folder_id f)))
              (Store.folders prev);
     Store.scriptFolderMap := map (unfile id) (Store.scriptFolderMap prev) |}.

(** The folder [root] itself, or a folder below it along [parentId]. *)
Inductive descends (folders : list Store.Folder) (root : string) : string -> Prop :=
| descends_root : descends folders root root
| descends_child folder parent :
    In folder folders ->
    Store.parentId folder = Some parent ->
    Text.truthy parent = true ->
    descends folders root parent ->
    descends folders root (Store.folder_id folder).

(** How many folders are not in the set yet. *)
Definition unmarked (folders : list Store.Folder) (set : list string) : nat :=
  List.length (filter (fun f => negb (includes set (Store.folder_id f))) folders).

(** A folder tree for the examples: [f2] inside [f1], [f3] inside [f2],
    [g] apart. *)
Definition a_folder (id : string) (parent : option string) : Store.Folder :=
  {| Store.folder_id := id; Store.folder_name := id; Store.parentId := parent;
     Store.folder_createdAt := 0 |}.

Definition nested_folders : Store.AppState :=
  {| Store.scripts := [a_script "a" "Build"; a_script "b" "Deploy"];
     Store.folders := [a_folder "f3" (Some "f2"); a_folder "f2" (Some "f1");
                       a_folder "g" None; a_folder "f1" None];
     Store.scriptFolderMap := [("a", Some "f1"); ("b", Some "f3")] |}.

(** *** [duplicateScript] *)

(** [\d] *)
Definition is_digit (c : ascii) : bool :=
  let n := nat_of_ascii c in ((48 <=? n) && (n <=? 57))%nat.

Fixpoint drop_while (p : ascii -> bool) (l : list ascii) : list ascii :=
  match l with
  | [] => []
  | c :: rest => if p c then drop_while p rest else l
  end.

(** [name.replace(/\s*\(\d+\)$/, '')], read from the end of the name: a
    closing parenthesis, digits (one at least), an opening parenthesis,
    and all the white space before it. *)
Definition strip_counter (name : string) : string :=
  match rev (list_ascii_of_string name) with
  | c :: (d :: _) as digits =>
      if Ascii.eqb c ")" && is_digit d
      then match drop_while is_digit digits with
           | o :: before =>
               if Ascii.eqb o "("
               then string_of_list_ascii (rev (drop_while Text.is_white before))
               else name
           | [] => name
           end
      else name
  | _ => name
  end.

(** [name.startsWith(start)] *)
Fixpoint startsWith (name start : string) : bool :=
  match start, name with
  | EmptyString, _ => true
  | String a start', String b name' => Ascii.eqb a b && startsWith name' start'
  | String _ _, EmptyString => false
  end.

(** [`${baseName} (${counter})`] *)
Definition numbered (baseName : string) (counter : nat) : string :=
  baseName ++ " (" ++ Text.of_Z (Z.of_nat counter) ++ ")".

(** [while (existingNames.includes(...)) counter++], with the turns to
    spare counted by [fuel]: the names to avoid bound the turns. *)
Fixpoint free_counter (fuel : nat) (existingNames : list string) (baseName : string)
    (counter : nat) : nat :=
  if includes existingNames (numbered baseName counter)
  then match fuel with
       | S fuel' => free_counter fuel' existingNames baseName (S counter)
       | O => counter
       end
  else counter.

Definition existing_names (baseName : string) (st : Store.AppState) : list string :=
  filter (fun name => String.eqb name baseName || startsWith name (baseName ++ " ("))
         (map Store.script_name (Store.scripts st)).

Definition duplicate_name (script : Store.Script) (st : Store.AppState) : string :=
  let baseName := strip_counter (Store.script_name script) in
  let existingNames := existing_names baseName st in
  match existingNames with
  | [] => baseName
  | _ :: _ =>
      numbered baseName
               (free_counter (List.length existingNames) existingNames baseName 1)
  end.

(** The copy, with the id and the time the environment gives. *)
Definition duplicate_of (script : Store.Script) (newId : string) (now : Z)
    (st : Store.AppState) : Store.Script :=
  {| Store.script_id := newId;
     Store.script_name := duplicate_name script st;
     Store.code := Store.code script;
     Store.language := Store.language script;
     Store.inputs := Store.inputs script;
     Store.script_createdAt := now;
     Store.updatedAt := now |}.

Definition duplicateScript (script : Store.Script) (newId : string) (now : Z)
    (st : Store.AppState) : Store.AppState :=
  let folderId :=
    match get_key (Store.script_id script) (Store.scriptFolderMap st) with
    | Some folder => folder
    | None => None
    end in
  {| Store.scripts := (Store.scripts st ++ [duplicate_of script newId now st])%list;
     Store.folders := Store.folders st;
     Store.scriptFolderMap := set_key (Store.scriptFolderMap st) newId folderId |}.

(** *** [deleteScript], [moveScriptToFolder] *)

(** [const { [id]: _, ...restMap } = map] *)
Fixpoint remove_key {V} (key : string) (map : list (string * V)) : list (string * V) :=
  match map with
  | [] => []
  | (k, v) :: rest =>
      if String.eqb k key then remove_key key rest else (k, v) :: remove_key key rest
  end.

Definition deleteScript (id : string) (prev : Store.AppState) : Store.AppState :=
  {| Store.scripts :=
       filter (fun s => negb (String.eqb (Store.script_id s) id)) (Store.scripts prev);
     Store.folders := Store.folders prev;
     Store.scriptFolderMap := remove_key id (Store.scriptFolderMap prev) |}.

Definition moveScriptToFolder (scriptId : string) (folderId : option string)
    (prev : Store.AppState) : Store.AppState :=
  {| Store.scripts := Store.scripts prev;
     Store.folders := Store.folders prev;
     Store.scriptFolderMap := set_key (Store.scriptFolderMap prev) scriptId folderId |}.

(** Every id the folder map files names a script of the store. *)
Definition filed_ids_exist (st : Store.AppState) : Prop :=
  forall key, get_key key (Store.scriptFolderMap st) <> None ->
              In key (map Store.script_id (Store.scripts st)).

(** * Properties *)

(** ** Text *)

Lemma truthy_false (s : string) : Text.truthy s = false <-> s = EmptyString.
Proof. destruct s; simpl; split; congruence. Qed.

Lemma truthy_true (s : string) : Text.truthy s = true <-> s <> EmptyString.
Proof. destruct s; simpl; split; congruence. Qed.

Lemma split_LF_nonempty (s : string) : Text.split_LF s <> [].
Proof.
  induction s as [|c s IH]; simpl; [discriminate|].
  destruct (Ascii.eqb c Text.LF); [discriminate|].
  destruct (Text.split_LF s); discriminate.
Qed.

Lemma join_LF_cons (p : string) (pieces : list string) :
  pieces <> [] -> Text.join_LF (p :: pieces) = p ++ String Text.LF (Text.join_LF pieces).
Proof. destruct pieces; [congruence|reflexivity]. Qed.

Lemma join_LF_head (c : ascii) (p : string) (pieces : list string) :
  Text.join_LF (String c p :: pieces) = String c (Text.join_LF (p :: pieces)).
Proof. destruct pieces; reflexivity. Qed.

(** Splitting loses nothing: joining the pieces gives the text back. *)
Lemma join_split_LF (s : string) : Text.join_LF (Text.split_LF s) = s.
Proof.
  induction s as [|c s IH]; [reflexivity|].
  pose proof (split_LF_nonempty s) as Hne.
  cbn [Text.split_LF]. destruct (Ascii.eqb_spec c Text.LF) as [->|Hc].
  - rewrite join_LF_cons by assumption. now rewrite IH.
  - destruct (Text.split_LF s) as [|p ps]; [congruence|].
    rewrite join_LF_head. now rewrite IH.
Qed.



Lemma lines_empty : Text.lines EmptyString = [].
Proof. reflexivity. Qed.

(** ** The resolve-once guard *)

Lemma resolve_settled st err r :
  Child.resolved st = Some r -> Child.resolved (resolve st err) = Some r.
Proof. intros H. unfold resolve. now rewrite H. Qed.

Lemma resolve_fresh st err :
  Child.resolved st = None ->
  Child.resolved (resolve st err)
  = Some {| logs := Child.logs st; result := VUndefined; error := err |}.
Proof. intros H. unfold resolve. now rewrite H. Qed.

Lemma collect_stdout_resolved st :
  Child.resolved (collect_stdout st) = Child.resolved st.
Proof. unfold collect_stdout. now destruct (Text.truthy (Child.stdout st)). Qed.

Lemma collect_stdout_stderr st :
  Child.stderr (collect_stdout st) = Child.stderr st.
Proof. unfold collect_stdout. now destruct (Text.truthy (Child.stdout st)). Qed.

Lemma collect_stdout_logs st :
  Child.logs st = [] -> Child.logs (collect_stdout st) = Text.lines (Child.stdout st).
Proof.
  intros Hl. unfold collect_stdout.
  destruct (Text.truthy (Child.stdout st)) eqn:E; simpl.
  - now rewrite Hl.
  - apply truthy_false in E. now rewrite Hl, E.
Qed.

Lemma python_close_keeps st exitCode r :
  Child.resolved st = Some r -> Child.resolved (python_close st exitCode) = Some r.
Proof.
  intros H. unfold python_close.
  destruct (_ || _); apply resolve_settled; now rewrite collect_stdout_resolved.
Qed.

Lemma shell_close_keeps st exitCode r :
  Child.resolved st = Some r -> Child.resolved (shell_close st exitCode) = Some r.
Proof.
  intros H. unfold shell_close.
  destruct (_ || _); apply resolve_settled.
  - destruct (Text.truthy _); simpl; now rewrite collect_stdout_resolved.
  - now rewrite collect_stdout_resolved.
Qed.

Lemma python_keeps_first : keeps_first python_on.
Proof.
  intros st [c|c|code|msg|] r H; simpl; auto using resolve_settled, python_close_keeps.
Qed.

Lemma shell_keeps_first : keeps_first shell_on.
Proof.
  intros st [c|c|code|msg|] r H; simpl; auto using resolve_settled, shell_close_keeps.
Qed.

Lemma command_keeps_first : keeps_first command_on.
Proof.
  intros st [c|c|code|msg|] r H; simpl; auto using resolve_settled, shell_close_keeps.
Qed.

(** Once settled, later callbacks change nothing in the reply. *)
Lemma fold_keeps_first on (Hon : keeps_first on) events :
  forall st r, Child.resolved st = Some r ->
               Child.resolved (fold_left on events st) = Some r.
Proof.
  induction events as [|ev events IH]; intros st r H; simpl; [exact H|].
  apply IH. now apply Hon.
Qed.

(** ** The callbacks against the outcome *)

Lemma python_close_fresh st exitCode :
  Child.resolved st = None -> Child.logs st = [] ->
  Child.resolved (python_close st exitCode)
  = Some {| logs := Text.lines (Child.stdout st); result := VUndefined;
            error := if nonzero exitCode || Text.truthy (Child.stderr st)
                     then Some (Text.or_else (Child.stderr st)
                                  ("Process exited with code "
                                     ++ Text.of_exitCode exitCode))
                     else None |}.
Proof.
  intros Hr Hl. unfold python_close. rewrite collect_stdout_stderr.
  destruct (nonzero exitCode || Text.truthy (Child.stderr st));
    rewrite resolve_fresh by (now rewrite collect_stdout_resolved);
    now rewrite collect_stdout_logs.
Qed.

Lemma shell_close_fresh st exitCode :
  Child.resolved st = None -> Child.logs st = [] ->
  Child.resolved (shell_close st exitCode)
  = Some {| logs := Text.lines (Child.stdout st)
                      ++ map ERROR_line (Text.lines (Child.stderr st));
            result := VUndefined;
            error := if nonzero exitCode
                     then Some ("Exit code: " ++ Text.of_exitCode exitCode)
                     else None |}.
Proof.
  intros Hr Hl. unfold shell_close. rewrite collect_stdout_stderr.
  destruct (nonzero exitCode) eqn:En; cbn [orb].
  - destruct (Text.truthy (Child.stderr st)) eqn:Et.
    + rewrite resolve_fresh by (simpl; now rewrite collect_stdout_resolved).
      simpl. now rewrite collect_stdout_logs.
    + rewrite resolve_fresh by (now rewrite collect_stdout_resolved).
      apply truthy_false in Et. rewrite Et, lines_empty. simpl.
      now rewrite app_nil_r, collect_stdout_logs.
  - destruct (Text.truthy (Child.stderr st)) eqn:Et.
    + rewrite resolve_fresh by (simpl; now rewrite collect_stdout_resolved).
      simpl. now rewrite collect_stdout_logs.
    + rewrite resolve_fresh by (now rewrite collect_stdout_resolved).
      apply truthy_false in Et. rewrite Et, lines_empty. simpl.
      now rewrite app_nil_r, collect_stdout_logs.
Qed.

Ltac settle_now keeps :=
  match goal with
  | |- context [fold_left ?on ?events ?st] =>
      erewrite (fold_keeps_first on keeps events st) by eassumption
  end.

Lemma python_fold events :
  forall st, Child.resolved st = None -> Child.logs st = [] ->
  match Child.resolved (fold_left python_on events st) with
  | Some r => Resolved r
  | None => Pending
  end = python_policy (outcome_from events (Child.stdout st) (Child.stderr st)).
Proof.
  induction events as [|[chunk|chunk|exitCode|msg|] events IH]; intros st Hr Hl;
    cbn [fold_left outcome_from python_on].
  - now rewrite Hr.
  - now rewrite (IH (on_stdout st chunk)).
  - now rewrite (IH (on_stderr st chunk)).
  - pose proof (python_close_fresh st exitCode Hr Hl) as Hc.
    settle_now python_keeps_first. reflexivity.
  - pose proof (resolve_fresh st (Some ("Failed to execute Python: " ++ msg)) Hr) as Hc.
    settle_now python_keeps_first. now rewrite Hl.
  - pose proof (resolve_fresh st (Some "Script execution timed out (10s)") Hr) as Hc.
    settle_now python_keeps_first. now rewrite Hl.
Qed.

Lemma shell_fold events :
  forall st, Child.resolved st = None -> Child.logs st = [] ->
  match Child.resolved (fold_left shell_on events st) with
  | Some r => Resolved r
  | None => Pending
  end = shell_policy (outcome_from events (Child.stdout st) (Child.stderr st)).
Proof.
  induction events as [|[chunk|chunk|exitCode|msg|] events IH]; intros st Hr Hl;
    cbn [fold_left outcome_from shell_on].
  - now rewrite Hr.
  - now rewrite (IH (on_stdout st chunk)).
  - now rewrite (IH (on_stderr st chunk)).
  - pose proof (shell_close_fresh st exitCode Hr Hl) as Hc.
    settle_now shell_keeps_first. reflexivity.
  - pose proof (resolve_fresh st (Some ("Failed to execute shell: " ++ msg)) Hr) as Hc.
    settle_now shell_keeps_first. now rewrite Hl.
  - pose proof (resolve_fresh st (Some "Script execution timed out (30s)") Hr) as Hc.
    settle_now shell_keeps_first. now rewrite Hl.
Qed.

Lemma command_fold events :
  forall st, Child.resolved st = None -> Child.logs st = [] ->
  match Child.resolved (fold_left command_on events st) with
  | Some r => Resolved r
  | None => Pending
  end = command_policy (outcome_from events (Child.stdout st) (Child.stderr st)).
Proof.
  induction events as [|[chunk|chunk|exitCode|msg|] events IH]; intros st Hr Hl;
    cbn [fold_left outcome_from command_on].
  - now rewrite Hr.
  - now rewrite (IH (on_stdout st chunk)).
  - now rewrite (IH (on_stderr st chunk)).
  - pose proof (shell_close_fresh st exitCode Hr Hl) as Hc.
    settle_now command_keeps_first. reflexivity.
  - pose proof (resolve_fresh st (Some ("Failed to execute command: " ++ msg)) Hr) as Hc.
    settle_now command_keeps_first. now rewrite Hl.
  - pose proof (resolve_fresh st (Some "Command execution timed out (30s)") Hr) as Hc.
    settle_now command_keeps_first. now rewrite Hl.
Qed.

(** Each executor's reply is a function of the callback that came first. *)
Lemma executePython_policy h code inputs :
  executePython h code inputs = python_policy (python_run h code inputs).
Proof. unfold executePython, settle, python_run, outcome. now apply python_fold. Qed.

Lemma executeShell_policy h code inputs :
  executeShell h code inputs = shell_policy (shell_run h code inputs).
Proof. unfold executeShell, settle, shell_run, outcome. now apply shell_fold. Qed.

Lemma run_command_policy h command :
  run_command h command = command_policy (command_run h command).
Proof. unfold run_command, settle, command_run, outcome. now apply command_fold. Qed.

Lemma nonzero_true exitCode : nonzero exitCode = true <-> exitCode <> Some 0%Z.
Proof.
  destruct exitCode as [z|]; simpl.
  - rewrite negb_true_iff, Z.eqb_neq. split; intros H; congruence.
  - split; [discriminate|reflexivity].
Qed.

Lemma nonzero_false exitCode : nonzero exitCode = false <-> exitCode = Some 0%Z.
Proof.
  destruct exitCode as [z|]; simpl.
  - rewrite negb_false_iff, Z.eqb_eq. split; intros H; congruence.
  - split; discriminate.
Qed.

(** ** Sample runs *)

Example silent_runs :
  executeJavaScript (a_host [Close (Some 0%Z); TimerFired] (AsyncBody [])) EmptyString []
  = Resolved {| logs := []; result := VUndefined; error := None |} /\
  executePython (a_host [Close (Some 0%Z); TimerFired] (AsyncBody [])) EmptyString []
  = Resolved {| logs := []; result := VUndefined; error := None |} /\
  executeShell (a_host [Close (Some 0%Z); TimerFired] (AsyncBody [])) EmptyString []
  = Resolved {| logs := []; result := VUndefined; error := None |}.
Proof. repeat split. Qed.

Example chunks_are_joined_before_splitting :
  executePython
    (a_host [StdoutData "a"; StdoutData (line "b"); StdoutData (line (line "c"));
             Close (Some 0%Z); StdoutData "late"; TimerFired] (AsyncBody []))
    "print('ab'); print('c'); print()" []
  = Resolved {| logs := ["ab"; "c"]; result := VUndefined; error := None |}.
Proof. reflexivity. Qed.

Example python_killed_by_signal :
  executePython (a_host [Close None; TimerFired] (AsyncBody [])) "import os" []
  = Resolved {| logs := []; result := VUndefined;
                error := Some "Process exited with code null" |}.
Proof. reflexivity. Qed.

Example python_missing :
  executePython (a_host [SpawnError "spawn python3 ENOENT"; Close (Some (-2)%Z)]
                        (AsyncBody [])) "print(1)" []
  = Resolved {| logs := []; result := VUndefined;
                error := Some "Failed to execute Python: spawn python3 ENOENT" |}.
Proof. reflexivity. Qed.

Example shell_environment :
  env (shell_spawn warns "echo $name" [("name", IString "x y"); ("n", INumber (Number "3"))])
  = [("HOME", "/home/user"); ("name", "x y"); ("n", "3")] /\
  args (shell_spawn warns "echo $name" []) = ["-c"; "echo $name"] /\
  cwd (shell_spawn warns "echo $name" []) = Some "/home/user".
Proof. repeat split. Qed.

Example console_channels :
  run_body warns
    [ConsoleCall Console.log [VString "x"; VNumber (Number "1"); VNull];
     ConsoleCall Console.error [VBoolean true];
     ConsoleCall Console.warn [];
     ConsoleCall Console.info [VUndefined]] []
  = Fulfils VUndefined ["x 1 null"; "[ERROR] true"; "[WARN] "; "[INFO] undefined"].
Proof. reflexivity. Qed.

Example trimmed : Text.trim (line "  a b  ") = "a b".
Proof. reflexivity. Qed.

(** ** The Python close callback *)

(** C6: A Python run settled by its close callback is marked failed
    exactly when the exit code is not 0 or standard error is not empty;
    the error is then the standard-error text as it is, or, with nothing
    on standard error, "Process exited with code N"; the logs are the
    non-empty lines of standard output, in order. *)
Theorem python_close_result h code inputs exitCode out err :
  python_run h code inputs = Closed exitCode out err ->
  exists r,
    executePython h code inputs = Resolved r /\
    logs r = filter Text.truthy (Text.split_LF out) /\
    result r = VUndefined /\
    (error r <> None <-> exitCode <> Some 0%Z \/ err <> EmptyString) /\
    (err <> EmptyString -> error r = Some err) /\
    (err = EmptyString -> exitCode <> Some 0%Z ->
     error r = Some ("Process exited with code " ++ Text.of_exitCode exitCode)).
Proof.
  intros Hrun. rewrite executePython_policy, Hrun. cbn [python_policy done].
  eexists; split; [reflexivity|]. cbn [logs result error].
  repeat split; try reflexivity.
  - destruct (nonzero exitCode) eqn:En; cbn [orb].
    + intros _. left. now apply nonzero_true.
    + destruct (Text.truthy err) eqn:Et; [|congruence].
      intros _. right. now apply truthy_true.
  - intros [Hc|He].
    + apply nonzero_true in Hc. rewrite Hc. discriminate.
    + apply truthy_true in He. rewrite He, orb_true_r. discriminate.
  - intros He. apply truthy_true in He. unfold Text.or_else.
    now rewrite He, orb_true_r.
  - intros -> Hc. apply nonzero_true in Hc. now rewrite Hc.
Qed.

Lemma python_close_result_witness :
  exists r,
    executePython prints_seven "print(a + b)"
      [("a", INumber (Number "3")); ("b", INumber (Number "4"))] = Resolved r /\
    logs r = ["7"] /\ error r = None.
Proof.
  destruct (python_close_result prints_seven "print(a + b)"
              [("a", INumber (Number "3")); ("b", INumber (Number "4"))]
              (Some 0%Z) (line "7") EmptyString eq_refl)
    as [r [Hr [Hl [_ [He _]]]]].
  exists r. split; [exact Hr|]. split; [exact Hl|].
  destruct (error r) eqn:E; [|reflexivity].
  exfalso. assert (Hn : Some s <> None) by discriminate.
  apply He in Hn. destruct Hn as [Hn|Hn]; now apply Hn.
Defined.

(** ** The shell close callback *)

(** C2, as written, fails on [echo oops >&2; exit 1]: standard error is
    not empty and the error is still set, to "Exit code: 1". *)
Lemma shell_error_set_with_stderr :
  ~ claimed_shell_failure_policy fails_loudly "echo oops >&2; exit 1" [].
Proof.
  intros H.
  destruct (H (Some 1%Z) EmptyString (line "oops") _ eq_refl eq_refl) as [_ Hf].
  destruct Hf as [_ Hunset]; [left; discriminate|].
  discriminate Hunset. discriminate.
Qed.

(** C2, amended: A shell run settled by its close callback has for logs
    the non-empty lines of standard output followed by one
    "[ERROR] "-prefixed entry per non-empty line of standard error; its
    error is "Exit code: N" exactly when the exit code is not 0, whatever
    standard error holds, and is unset when the exit code is 0. *)
Theorem shell_close_result h code inputs exitCode out err :
  shell_run h code inputs = Closed exitCode out err ->
  exists r,
    executeShell h code inputs = Resolved r /\
    logs r = (filter Text.truthy (Text.split_LF out)
              ++ map (fun l => ("[ERROR] " ++ l)%string)
                     (filter Text.truthy (Text.split_LF err)))%list /\
    result r = VUndefined /\
    (exitCode <> Some 0%Z ->
     error r = Some ("Exit code: " ++ Text.of_exitCode exitCode)) /\
    (exitCode = Some 0%Z -> error r = None).
Proof.
  intros Hrun. rewrite executeShell_policy, Hrun.
  cbn [shell_policy shell_close_policy done].
  eexists; split; [reflexivity|]. cbn [logs result error].
  repeat split; try reflexivity.
  - intros Hc. apply nonzero_true in Hc. now rewrite Hc.
  - intros Hc. apply nonzero_false in Hc. now rewrite Hc.
Qed.

Lemma shell_close_result_witness :
  exists r,
    executeShell fails_loudly "echo oops >&2; exit 1" [] = Resolved r /\
    logs r = ["[ERROR] oops"] /\ error r = Some "Exit code: 1".
Proof.
  destruct (shell_close_result fails_loudly "echo oops >&2; exit 1" []
              (Some 1%Z) EmptyString (line "oops") eq_refl)
    as [r [Hr [Hl [_ [He _]]]]].
  exists r. split; [exact Hr|]. split; [exact Hl|].
  apply He. discriminate.
Defined.

(** ** The error field against the way the run ended *)

Lemma caught_error e lines r :
  caught e lines = Resolved r -> error r <> None /\ logs r = lines.
Proof.
  unfold caught.
  destruct (if instanceof_Error e then Some (message e) else String_of e);
    [|discriminate].
  intros [= <-]. split; [discriminate|reflexivity].
Qed.

(** C1, as written, fails on the shell run [echo warn >&2]: it exits
    with code 0 after writing to standard error and its error is unset. *)
Lemma shell_stderr_alone_sets_no_error :
  ~ claimed_error_invariant warns "echo warn >&2" [].
Proof.
  intros [_ [_ Hshell]].
  specialize (Hshell _ eq_refl). cbn in Hshell.
  apply Hshell; [|reflexivity].
  right. discriminate.
Qed.

(** C1, amended: The error field of the JavaScript executor's result is
    present exactly when the evaluation threw, rejected or timed out;
    that of the Python executor's exactly on a non-zero exit, content on
    standard error, a spawn failure or a timeout; that of the shell
    executor's exactly on a non-zero exit, a spawn failure or a timeout:
    content on standard error with exit code 0 leaves it unset. *)
Theorem error_iff_unsuccessful h code inputs :
  (forall r, executeJavaScript h code inputs = Resolved r ->
             (error r <> None <-> unsuccessful_js (try_block h code inputs))) /\
  (forall r, executePython h code inputs = Resolved r ->
             (error r <> None <-> unsuccessful (python_run h code inputs))) /\
  (forall r, executeShell h code inputs = Resolved r ->
             (error r <> None <-> unsuccessful_exit (shell_run h code inputs))).
Proof.
  split; [|split].
  - intros r. unfold executeJavaScript.
    destruct (try_block h code inputs) as [v l|e l|l|]; cbn [unsuccessful_js].
    + intros [= <-]. cbn. split; [congruence|contradiction].
    + intros Hc. apply caught_error in Hc. tauto.
    + intros Hc. apply caught_error in Hc. tauto.
    + discriminate.
  - intros r. rewrite executePython_policy.
    destruct (python_run h code inputs) as [c out err|m| |];
      cbn [python_policy done unsuccessful]; try discriminate;
      intros [= <-]; cbn [error]; try (split; [trivial|discriminate]).
    destruct (nonzero c) eqn:En; cbn [orb].
    + apply nonzero_true in En. split; [tauto|discriminate].
    + apply nonzero_false in En.
      destruct (Text.truthy err) eqn:Et.
      * apply truthy_true in Et. split; [tauto|discriminate].
      * apply truthy_false in Et. split; [congruence|]. intros [H|H]; congruence.
  - intros r. rewrite executeShell_policy.
    destruct (shell_run h code inputs) as [c out err|m| |];
      cbn [shell_policy shell_close_policy done unsuccessful_exit]; try discriminate;
      intros [= <-]; cbn [error]; try (split; [trivial|discriminate]).
    destruct (nonzero c) eqn:En.
    + apply nonzero_true in En. split; [tauto|discriminate].
    + apply nonzero_false in En. split; congruence.
Qed.

Lemma error_iff_unsuccessful_witness :
  (error {| logs := ["x"]; result := VUndefined;
            error := Some "Script execution timed out (10s)" |} <> None
   <-> unsuccessful_js
         (try_block logs_then_waits
            "console.log('x'); await sleep(20000); console.log('late')" [])) /\
  (error {| logs := ["[ERROR] warn"]; result := VUndefined; error := None |} <> None
   <-> unsuccessful_exit (shell_run warns "echo warn >&2" [])).
Proof.
  split.
  - apply (proj1 (error_iff_unsuccessful logs_then_waits
                    "console.log('x'); await sleep(20000); console.log('late')" [])).
    reflexivity.
  - apply (proj2 (proj2 (error_iff_unsuccessful warns "echo warn >&2" []))).
    reflexivity.
Defined.

(** ** Absorbing failures *)










(** ** The script body *)

(** What comes after statements that fall through runs from the logs
    they left. *)
Lemma run_body_app h pre post :
  forall lines lines',
    falls_through h pre lines = Some lines' ->
    run_body h (pre ++ post) lines = run_body h post lines'.
Proof.
  induction pre as [|s pre IH]; intros lines lines' H; cbn [app].
  - now injection H as ->.
  - destruct s as [v|m a|c|[|]|v|e|]; cbn [falls_through run_body] in *;
      try discriminate; try (now apply IH).
    destruct (exec h c lines) as [[o|e] l]; [now apply IH|discriminate].
Qed.


Lemma exec_extends h command lines :
  exists extra, snd (exec h command lines) = (lines ++ extra)%list.
Proof.
  unfold exec. destruct (execSync h command) as [o|e]; cbn [snd].
  - destruct (Text.truthy o); [now exists [o]|exists []; now rewrite app_nil_r].
  - exists []. now rewrite app_nil_r.
Qed.

(** Lines are only ever added at the end. *)
Lemma falls_through_extends h pre :
  forall lines lines',
    falls_through h pre lines = Some lines' ->
    exists extra, lines' = (lines ++ extra)%list.
Proof.
  induction pre as [|s pre IH]; intros lines lines' H.
  - injection H as <-. exists []. now rewrite app_nil_r.
  - destruct s as [v|m a|c|[|]|v|e|]; cbn [falls_through] in H;
      try discriminate; try (now apply IH).
    + apply IH in H. destruct H as [extra ->]. unfold customConsole.
      rewrite <- app_assoc. eauto.
    + destruct (exec_extends h c lines) as [x Hx].
      destruct (exec h c lines) as [[o|e] l]; [|discriminate].
      cbn [snd] in Hx. subst l. apply IH in H. destruct H as [extra ->].
      rewrite <- app_assoc. eauto.
Qed.

(** Every console call that ran left its line. *)
Lemma falls_through_console h pre m arguments :
  In (ConsoleCall m arguments) pre ->
  forall lines lines',
    falls_through h pre lines = Some lines' ->
    In (prefix m ++ Text.join_space (map show arguments)) lines'.
Proof.
  induction pre as [|s pre IH]; intros Hin lines lines' H; [destruct Hin|].
  destruct Hin as [->|Hin].
  - cbn [falls_through] in H. apply falls_through_extends in H.
    destruct H as [extra ->]. unfold customConsole.
    apply in_or_app. left. apply in_or_app. right. now left.
  - destruct s as [v|m' a|c|[|]|v|e|]; cbn [falls_through] in H;
      try discriminate; try (now apply (IH Hin _ _ H)).
    destruct (exec h c lines) as [[o|e] l]; [|discriminate].
    now apply (IH Hin _ _ H).
Qed.

Lemma try_block_body h code inputs body :
  vm_Script h (wrappedCode code) inputs 10000 = AsyncBody body ->
  try_block h code inputs = run_body h body [].
Proof. intros H. unfold try_block. now rewrite H. Qed.

(** ** The race against the timer *)

(** C4: The JavaScript executor's result is that of whichever settles
    first.  When the timer's callback runs while the script is suspended
    at an await, the result carries the error "Script execution timed
    out (10s)" and every line logged before that point, whatever the
    rest of the script would do; when the script returns first, the
    result carries its value and no error. *)
Theorem timer_race h code inputs pre post lines :
  falls_through h pre [] = Some lines ->
  (vm_Script h (wrappedCode code) inputs 10000 = AsyncBody (pre ++ Await true :: post) ->
   executeJavaScript h code inputs
   = Resolved {| logs := lines; result := VUndefined;
                 error := Some "Script execution timed out (10s)" |} /\
   forall m arguments,
     In (ConsoleCall m arguments) pre ->
     In (prefix m ++ Text.join_space (map show arguments)) lines) /\
  (forall value,
     vm_Script h (wrappedCode code) inputs 10000 = AsyncBody (pre ++ Return value :: post) ->
     executeJavaScript h code inputs
     = Resolved {| logs := lines; result := value; error := None |}).
Proof.
  intros Hpre. split.
  - intros Hvm. split.
    + unfold executeJavaScript.
      rewrite (try_block_body _ _ _ _ Hvm), (run_body_app _ _ _ _ _ Hpre).
      reflexivity.
    + intros m arguments Hin. exact (falls_through_console h pre m arguments Hin _ _ Hpre).
  - intros value Hvm. unfold executeJavaScript.
    rewrite (try_block_body _ _ _ _ Hvm), (run_body_app _ _ _ _ _ Hpre).
    reflexivity.
Qed.

Lemma timer_race_witness :
  executeJavaScript logs_then_waits
    "console.log('x'); await sleep(20000); console.log('late')" []
  = Resolved {| logs := ["x"]; result := VUndefined;
                error := Some "Script execution timed out (10s)" |}.
Proof.
  apply (timer_race logs_then_waits
           "console.log('x'); await sleep(20000); console.log('late')" []
           [ConsoleCall Console.log [VString "x"]]
           [ConsoleCall Console.log [VString "late"]] ["x"] eq_refl).
  reflexivity.
Defined.

(** ** Error capture and the result value *)




(** ** The sandbox's exec helper *)

Lemma trimStart_starts (s : string) : starts_white (Text.trimStart s) = false.
Proof.
  induction s as [|c s IH]; [reflexivity|].
  cbn [Text.trimStart]. destruct (Text.is_white c) eqn:E; [exact IH|].
  cbn [starts_white]. exact E.
Qed.

Lemma trimEnd_ends (s : string) : ends_white (Text.trimEnd s) = false.
Proof.
  induction s as [|c s IH]; [reflexivity|].
  cbn [Text.trimEnd]. destruct (Text.trimEnd s) as [|k kept] eqn:E.
  - destruct (Text.is_white c) eqn:Ec; [reflexivity|]. cbn [ends_white]. exact Ec.
  - cbn [ends_white]. cbn [ends_white] in IH. exact IH.
Qed.

Lemma trimEnd_starts (s : string) :
  starts_white s = false -> starts_white (Text.trimEnd s) = false.
Proof.
  destruct s as [|c s]; [reflexivity|].
  cbn [starts_white Text.trimEnd]. intros Hc.
  destruct (Text.trimEnd s); [now rewrite Hc|exact Hc].
Qed.

(** What [trim] returns has no white space at either end. *)
Lemma trim_spec (s : string) :
  starts_white (Text.trim s) = false /\ ends_white (Text.trim s) = false.
Proof.
  unfold Text.trim. split.
  - apply trimEnd_starts, trimStart_starts.
  - apply trimEnd_ends.
Qed.

(** C10: When the command run by the sandbox's exec helper succeeds,
    the helper returns its trimmed output to the script and, when that
    text is not empty, also appends it to the run's logs as one entry;
    when it is empty the logs are left as they were. *)
Theorem exec_logs_its_output h command lines output :
  nodeExecSync h command (home h) 30000 = ExecOutput output ->
  fst (exec h command lines) = inl (Text.trim output) /\
  (Text.trim output <> EmptyString ->
   snd (exec h command lines) = (lines ++ [Text.trim output])%list) /\
  (Text.trim output = EmptyString -> snd (exec h command lines) = lines).
Proof.
  intros Hrun. unfold exec, execSync. rewrite Hrun. cbn [fst snd].
  split; [reflexivity|]. split.
  - intros Hne. apply truthy_true in Hne. now rewrite Hne.
  - intros He. now rewrite He.
Qed.

Lemma exec_logs_its_output_witness :
  exec says_hi "echo ' hi '" ["before"] = (inl "hi", ["before"; "hi"]).
Proof.
  destruct (exec_logs_its_output says_hi "echo ' hi '" ["before"] (line " hi ") eq_refl)
    as [Hv [Hl _]].
  specialize (Hl ltac:(discriminate)).
  destruct (exec says_hi "echo ' hi '" ["before"]) as [v l].
  cbn [fst snd] in Hv, Hl. now rewrite Hv, Hl.
Defined.

(** ** Dispatch *)

(** C7: The "execute-script" handler looks at the language tag only:
    "python" goes to the Python executor, "shell" to the shell executor,
    and any other tag, a missing one included, to the JavaScript
    executor, whose result is handed back as it is. *)
Theorem dispatch_by_language h code inputs :
  execute_script h code inputs (Some "python") = executePython h code inputs /\
  execute_script h code inputs (Some "shell") = executeShell h code inputs /\
  (forall language,
     language <> Some "python" -> language <> Some "shell" ->
     execute_script h code inputs language = executeJavaScript h code inputs).
Proof.
  split; [reflexivity|]. split; [reflexivity|].
  intros [l|] Hp Hs; [|reflexivity].
  unfold execute_script, is_tag.
  destruct (String.eqb_spec l "python") as [->|_]; [congruence|].
  destruct (String.eqb_spec l "shell") as [->|_]; [congruence|].
  reflexivity.
Qed.

Lemma dispatch_by_language_witness :
  execute_script adds "1 + 2" [] (Some "ruby") = executeJavaScript adds "1 + 2" [] /\
  execute_script adds "1 + 2" [] None = executeJavaScript adds "1 + 2" [].
Proof.
  destruct (dispatch_by_language adds "1 + 2" []) as (_ & _ & H).
  split; apply H; discriminate.
Defined.

(** ** The ad hoc command entry point *)

Lemma command_spawn_shell_spawn h command :
  command_spawn h command = shell_spawn h command [].
Proof. reflexivity. Qed.

(** C8, as written, fails on [sleep 60]: after the timeout the command
    entry point answers "Command execution timed out (30s)" and the shell
    executor "Script execution timed out (30s)". *)
Lemma command_timeout_message_differs :
  ~ claimed_command_same_as_shell sleeps "sleep 60".
Proof. intros H. discriminate H. Qed.

(** C8, amended: The command entry point spawns the same shell with the
    same arguments, directory and environment as the shell executor
    given no parameters, under the same 30-second timer, and returns the
    same Script Result whenever the run is settled by its close
    callback; after a spawn failure or a timeout the two results differ
    in their error text only: "Failed to execute command: ..." and
    "Command execution timed out (30s)" for the one, "Failed to execute
    shell: ..." and "Script execution timed out (30s)" for the other. *)
Theorem command_like_shell h command :
  command_spawn h command = shell_spawn h command [] /\
  command_run h command = shell_run h command [] /\
  match shell_run h command [] with
  | Failed msg =>
      run_command h command
      = Resolved {| logs := []; result := VUndefined;
                    error := Some ("Failed to execute command: " ++ msg) |} /\
      executeShell h command []
      = Resolved {| logs := []; result := VUndefined;
                    error := Some ("Failed to execute shell: " ++ msg) |}
  | TimedOut =>
      run_command h command
      = Resolved {| logs := []; result := VUndefined;
                    error := Some "Command execution timed out (30s)" |} /\
      executeShell h command []
      = Resolved {| logs := []; result := VUndefined;
                    error := Some "Script execution timed out (30s)" |}
  | Closed _ _ _ => run_command h command = executeShell h command []
  | Unsettled => run_command h command = executeShell h command []
  end.
Proof.
  split; [reflexivity|]. split; [reflexivity|].
  rewrite run_command_policy, executeShell_policy.
  change (command_run h command) with (shell_run h command []).
  destruct (shell_run h command []); cbn; auto.
Qed.

(** ** Parameters for Python *)

Lemma fold_append {A} (f : A -> string) (items : list A) :
  forall acc, fold_left (fun acc x => acc ++ f x) items acc
              = acc ++ String.concat EmptyString (map f items).
Proof.
  assert (Hnil : forall s : string, s ++ EmptyString = s)
    by (induction s; simpl; congruence).
  assert (Hassoc : forall a b c : string, (a ++ b) ++ c = a ++ b ++ c)
    by (induction a; simpl; congruence).
  induction items as [|x items IH]; intros acc; simpl.
  - now rewrite Hnil.
  - rewrite IH, Hassoc. f_equal.
    destruct items as [|y items]; simpl; [now rewrite Hnil|reflexivity].
Qed.

(** The interpreter is started as [python3 -c text], the text being one
    assignment per parameter, in order, and then the script. *)
Lemma python_invocation h code inputs :
  file (python_spawn h code inputs) = "python3" /\
  args (python_spawn h code inputs)
  = ["-c"; String.concat EmptyString (map python_assignment inputs) ++ code].
Proof.
  split; [reflexivity|]. cbn [args python_spawn]. unfold fullCode, inputCode.
  now rewrite fold_append.
Qed.

Lemma python_assignment_string key value :
  python_assignment (key, IString value)
  = key ++ " = " ++ String Text.DQUOTE (Text.escape_dquotes value)
        ++ String Text.DQUOTE (String Text.LF EmptyString).
Proof.
  cbn [python_assignment]. unfold python_string.
  do 2 f_equal. cbn [append]. f_equal.
  induction (Text.escape_dquotes value) as [|c s IH]; [reflexivity|].
  cbn [append]. now rewrite IH.
Qed.

Lemma python_assignment_number key n :
  python_assignment (key, INumber n)
  = key ++ " = " ++ Number_toString n ++ String Text.LF EmptyString.
Proof. reflexivity. Qed.

(** A value with neither backslash nor line feed is read back as it was,
    its double quotes included. *)
Lemma string_body_plain value rest :
  plain value = true ->
  Python.string_body (Text.escape_dquotes value ++ String Text.DQUOTE rest)
  = Python.Literal value rest.
Proof.
  induction value as [|c value IH]; intros Hp; [reflexivity|].
  cbn [plain] in Hp. apply andb_prop in Hp. destruct Hp as [Hp Hrest].
  apply andb_prop in Hp. destruct Hp as [Hb Hl].
  apply negb_true_iff in Hb, Hl. specialize (IH Hrest).
  cbn [Text.escape_dquotes]. destruct (Ascii.eqb_spec c Text.DQUOTE) as [->|Hq].
  - cbn [append Python.string_body]. rewrite IH. reflexivity.
  - cbn [append Python.string_body].
    apply Ascii.eqb_neq in Hq. rewrite Hq, Hl, Hb, IH. reflexivity.
Qed.

Lemma quoting_round_trips_plain value :
  plain value = true -> claimed_quoting_round_trips value.
Proof.
  intros Hp. unfold claimed_quoting_round_trips, python_string, Python.quoted.
  rewrite Ascii.eqb_refl. now rewrite string_body_plain.
Qed.

(** C5: at the parameter [s] holding the two characters backslash and
    double quote, the value is emitted between quotes as backslash,
    backslash, double quote: Python ends the literal at that double
    quote, with a single backslash for value, and is left with the
    closing quote of the template, unmatched, so the value does not come
    back and the program does not parse. *)
Theorem backslash_quote_breaks_out :
  fullCode "print(s)" [("s", IString backslash_quote)]
  = "s = " ++ String Text.DQUOTE
                (String Text.BACKSLASH
                   (String Text.BACKSLASH
                      (String Text.DQUOTE
                         (String Text.DQUOTE (String Text.LF "print(s)"))))) /\
  Python.string_body
    (Text.escape_dquotes backslash_quote
       ++ String Text.DQUOTE (String Text.LF "print(s)"))
  = Python.Literal (String Text.BACKSLASH EmptyString)
                   (String Text.DQUOTE (String Text.LF "print(s)")) /\
  ~ claimed_quoting_round_trips backslash_quote.
Proof.
  split; [reflexivity|]. split; [reflexivity|].
  intros H. discriminate H.
Qed.

(** * Further properties of the execution core *)

Lemma string_app_nil (s : string) : s ++ EmptyString = s.
Proof. induction s; simpl; congruence. Qed.

Lemma string_app_assoc (a b c : string) : (a ++ b) ++ c = a ++ b ++ c.
Proof. induction a; simpl; congruence. Qed.

Lemma settle_python events : settle python_on events = python_policy (outcome events).
Proof. unfold settle, outcome. now apply python_fold. Qed.

Lemma settle_shell events : settle shell_on events = shell_policy (outcome events).
Proof. unfold settle, outcome. now apply shell_fold. Qed.

Lemma settle_command events : settle command_on events = command_policy (outcome events).
Proof. unfold settle, outcome. now apply command_fold. Qed.


(** ** The first settlement stands *)



(** ** Output and chunks *)




Lemma outcome_after_data pre rest :
  forallb is_data pre = true ->
  forall out err,
    outcome_from (pre ++ rest)%list out err
    = outcome_from rest (out ++ stdout_of pre) (err ++ stderr_of pre).
Proof.
  induction pre as [|[c|c|x|m|] pre IH]; intros Hd out err;
    cbn [forallb is_data andb] in Hd; try discriminate;
    cbn [app outcome_from stdout_of stderr_of].
  - now rewrite !string_app_nil.
  - rewrite (IH Hd). now rewrite string_app_assoc.
  - rewrite (IH Hd). now rewrite string_app_assoc.
Qed.

Lemma outcome_data_then pre ev post :
  forallb is_data pre = true ->
  outcome (pre ++ ev :: post)%list
  = outcome_from (ev :: post) (stdout_of pre) (stderr_of pre).
Proof. intros Hd. unfold outcome. now rewrite (outcome_after_data pre _ Hd). Qed.

(** X3: Output is turned into log entries by the close callback only: when
    the timer or a spawn error settles the run first, the reply carries
    no log entry, whatever the child had written by then. *)
Theorem output_lost_without_close h code inputs pre post :
  forallb is_data pre = true ->
  (child_events h (python_spawn h code inputs) 10000 = (pre ++ TimerFired :: post)%list ->
   executePython h code inputs
   = Resolved {| logs := []; result := VUndefined;
                 error := Some "Script execution timed out (10s)" |}) /\
  (child_events h (shell_spawn h code inputs) 30000 = (pre ++ TimerFired :: post)%list ->
   executeShell h code inputs
   = Resolved {| logs := []; result := VUndefined;
                 error := Some "Script execution timed out (30s)" |}) /\
  (forall msg,
     child_events h (python_spawn h code inputs) 10000 = (pre ++ SpawnError msg :: post)%list ->
     executePython h code inputs
     = Resolved {| logs := []; result := VUndefined;
                   error := Some ("Failed to execute Python: " ++ msg) |}) /\
  (forall msg,
     child_events h (shell_spawn h code inputs) 30000 = (pre ++ SpawnError msg :: post)%list ->
     executeShell h code inputs
     = Resolved {| logs := []; result := VUndefined;
                   error := Some ("Failed to execute shell: " ++ msg) |}).
Proof.
  intros Hd. repeat split.
  - intros He. unfold executePython. rewrite He, settle_python.
    now rewrite (outcome_data_then pre _ post Hd).
  - intros He. unfold executeShell. rewrite He, settle_shell.
    now rewrite (outcome_data_then pre _ post Hd).
  - intros msg He. unfold executePython. rewrite He, settle_python.
    now rewrite (outcome_data_then pre _ post Hd).
  - intros msg He. unfold executeShell. rewrite He, settle_shell.
    now rewrite (outcome_data_then pre _ post Hd).
Qed.

Lemma output_lost_without_close_witness :
  executePython prints_then_hangs "for i in range(3): print(i); time.sleep(9)" []
  = Resolved {| logs := []; result := VUndefined;
                error := Some "Script execution timed out (10s)" |}.
Proof.
  apply (proj1 (output_lost_without_close prints_then_hangs
                  "for i in range(3): print(i); time.sleep(9)" []
                  [StdoutData (line "0"); StdoutData (line "1")] [Close None]
                  eq_refl)).
  reflexivity.
Defined.





(** ** The environment of a shell run *)

Lemma lookup_assign_same vars key value :
  lookup key (assign vars key value) = Some value.
Proof.
  induction vars as [|[k v] vars IH]; cbn [assign lookup].
  - now rewrite String.eqb_refl.
  - destruct (String.eqb_spec k key) as [->|Hk]; cbn [lookup].
    + now rewrite String.eqb_refl.
    + apply String.eqb_neq in Hk. now rewrite Hk.
Qed.

Lemma lookup_assign_other vars key value name :
  name <> key -> lookup name (assign vars key value) = lookup name vars.
Proof.
  intros Hn. induction vars as [|[k v] vars IH]; cbn [assign lookup].
  - destruct (String.eqb_spec key name); [congruence|reflexivity].
  - destruct (String.eqb_spec k key) as [->|Hk]; cbn [lookup].
    + destruct (String.eqb_spec key name); [congruence|reflexivity].
    + destruct (String.eqb_spec k name); [reflexivity|exact IH].
Qed.

Lemma shell_env_fold inputs :
  forall vars name,
    ~ In name (map fst inputs) ->
    lookup name
      (fold_left (fun vars entry => assign vars (fst entry) (String_of_input (snd entry)))
                 inputs vars)
    = lookup name vars.
Proof.
  induction inputs as [|[k v] inputs IH]; intros vars name Hn; [reflexivity|].
  cbn [fold_left fst snd]. cbn [map fst In] in Hn.
  rewrite IH by tauto. apply lookup_assign_other. intros ->. tauto.
Qed.

(** X5: The child of a shell run sees every parameter as an environment
    variable holding [String(value)], the last one given under a name
    winning, and sees every other variable of the launcher's own
    environment unchanged. *)
Theorem shell_env_holds_inputs h code before key value after name :
  (~ In key (map fst after) ->
   lookup key (env (shell_spawn h code (before ++ (key, value) :: after)%list))
   = Some (String_of_input value)) /\
  (~ In name (map fst (before ++ (key, value) :: after)%list) ->
   lookup name (env (shell_spawn h code (before ++ (key, value) :: after)%list))
   = lookup name (process_env h)).
Proof.
  cbn [env shell_spawn]. unfold shell_env. split.
  - intros Hn. rewrite fold_left_app. cbn [fold_left fst snd].
    rewrite shell_env_fold by assumption. apply lookup_assign_same.
  - intros Hn. now apply shell_env_fold.
Qed.

Lemma shell_env_holds_inputs_witness :
  lookup "name" (env (shell_spawn warns "echo $name $HOME"
                        ([("name", IString "old")]
                           ++ ("name", IString "x y") :: [("n", INumber (Number "3"))])%list))
  = Some "x y" /\
  lookup "HOME" (env (shell_spawn warns "echo $name $HOME"
                        ([("name", IString "old")]
                           ++ ("name", IString "x y") :: [("n", INumber (Number "3"))])%list))
  = Some "/home/user".
Proof.
  split.
  - apply (shell_env_holds_inputs warns "echo $name $HOME"
             [("name", IString "old")] "name" (IString "x y")
             [("n", INumber (Number "3"))] "HOME").
    simpl. intros [H|H]; [discriminate|contradiction].
  - apply (shell_env_holds_inputs warns "echo $name $HOME"
             [("name", IString "old")] "name" (IString "x y")
             [("n", INumber (Number "3"))] "HOME").
    simpl. intros [H|[H|[H|H]]]; try discriminate; contradiction.
Defined.

(** ** The program handed to Python *)

Lemma fullCode_cons code entry rest :
  fullCode code (entry :: rest) = python_assignment entry ++ fullCode code rest.
Proof.
  unfold fullCode, inputCode. cbn [fold_left]. rewrite !fold_append.
  cbn [append]. now rewrite string_app_assoc.
Qed.

Lemma fullCode_string code key s rest :
  fullCode code ((key, IString s) :: rest)
  = key ++ " = " ++ String Text.DQUOTE (Text.escape_dquotes s)
        ++ String Text.DQUOTE (String Text.LF (fullCode code rest)).
Proof.
  rewrite fullCode_cons, python_assignment_string.
  rewrite string_app_assoc. f_equal. cbn [append]. do 4 f_equal.
  now rewrite string_app_assoc.
Qed.

Lemma fullCode_number code key n rest :
  fullCode code ((key, INumber n) :: rest)
  = key ++ " = " ++ Number_toString n ++ String Text.LF (fullCode code rest).
Proof.
  rewrite fullCode_cons, python_assignment_number.
  rewrite string_app_assoc. f_equal. cbn [append]. do 3 f_equal.
  now rewrite string_app_assoc.
Qed.

(** X6: The text given to [python3 -c] is the script itself when there is
    no parameter, and otherwise starts with the assignment of the first
    parameter on a line of its own: its name, [ = ], then the value
    between double quotes with a backslash put before each double quote
    of it, or the bare numeral for a number; the assignments of the
    other parameters and the script follow in order. *)
Theorem python_program_text code key rest :
  fullCode code [] = code /\
  (forall s,
     fullCode code ((key, IString s) :: rest)
     = key ++ " = " ++ String Text.DQUOTE (Text.escape_dquotes s)
           ++ String Text.DQUOTE (String Text.LF (fullCode code rest))) /\
  (forall n,
     fullCode code ((key, INumber n) :: rest)
     = key ++ " = " ++ Number_toString n ++ String Text.LF (fullCode code rest)).
Proof.
  split; [reflexivity|]. split.
  - intros s. apply fullCode_string.
  - intros n. apply fullCode_number.
Qed.



(** ** More on the script body *)




(** X9: When a command given to the sandbox's [exec] fails and the script
    does not catch it, the run ends there: the lines logged so far are
    kept, nothing after the call runs, and the error is the command's
    standard error text, or, when that is empty, the string form of
    Node's error, or the message of Node's error when it carries no
    standard error at all. *)
Theorem exec_failure_ends_script h code inputs pre command post lines msg stderr :
  vm_Script h (wrappedCode code) inputs 10000
  = AsyncBody (pre ++ ExecCall command :: post)%list ->
  falls_through h pre [] = Some lines ->
  nodeExecSync h command (home h) 30000 = ExecFailure msg stderr ->
  executeJavaScript h code inputs
  = Resolved {| logs := lines; result := VUndefined;
                error := Some match stderr with
                              | Some text => if Text.truthy text then text
                                             else "Error: " ++ msg
                              | None => msg
                              end |}.
Proof.
  intros Hvm Hpre Hrun. unfold executeJavaScript.
  rewrite (try_block_body _ _ _ _ Hvm), (run_body_app _ _ _ _ _ Hpre).
  cbn [run_body]. unfold exec, execSync. rewrite Hrun.
  destruct stderr as [text|]; cbn; [|reflexivity].
  unfold Text.or_else. now destruct (Text.truthy text).
Qed.

Lemma exec_failure_ends_script_witness :
  executeJavaScript exec_fails
    "console.log('go'); exec('ls /nope'); console.log('after')" []
  = Resolved {| logs := ["go"]; result := VUndefined;
                error := Some (line "ls: /nope: No such file") |}.
Proof.
  exact (exec_failure_ends_script exec_fails
           "console.log('go'); exec('ls /nope'); console.log('after')" []
           [ConsoleCall Console.log [VString "go"]] "ls /nope"
           [ConsoleCall Console.log [VString "after"]] ["go"]
           "Command failed: ls /nope" (Some (line "ls: /nope: No such file"))
           eq_refl eq_refl eq_refl).
Defined.

(** X10: A script that reaches a loop which never exits gets no reply at all:
    the timer's callback cannot run while the loop does, so the promise
    stays pending, whatever was logged before. *)
Theorem endless_loop_never_answers h code inputs pre post lines :
  vm_Script h (wrappedCode code) inputs 10000 = AsyncBody (pre ++ Spin :: post)%list ->
  falls_through h pre [] = Some lines ->
  executeJavaScript h code inputs = Pending.
Proof.
  intros Hvm Hpre. unfold executeJavaScript.
  now rewrite (try_block_body _ _ _ _ Hvm), (run_body_app _ _ _ _ _ Hpre).
Qed.

Lemma endless_loop_never_answers_witness :
  executeJavaScript spins "while (true) {}" [] = Pending.
Proof.
  exact (endless_loop_never_answers spins "while (true) {}" [] [] [] []
           eq_refl eq_refl).
Defined.

(** ** When the window hides after a run *)

Lemma no_lines_length (l : list string) : (List.length l =? 0)%nat = true <-> l = [].
Proof. destruct l; simpl; split; congruence. Qed.

(** X11: After a Python run that closed, the window hides by itself exactly
    when the exit code is 0, nothing came on standard error and standard
    output had no non-empty line; after a shell run that closed, exactly
    when the exit code is 0 and neither stream had a non-empty line
    (blank lines on standard error alone do not keep it open). *)
Theorem window_hides_after_child h code inputs exitCode out err :
  (python_run h code inputs = Closed exitCode out err ->
   exists r, executePython h code inputs = Resolved r /\
             (hides_window r = true
              <-> exitCode = Some 0%Z /\ err = EmptyString /\ Text.lines out = [])) /\
  (shell_run h code inputs = Closed exitCode out err ->
   exists r, executeShell h code inputs = Resolved r /\
             (hides_window r = true
              <-> exitCode = Some 0%Z /\ Text.lines out = [] /\ Text.lines err = [])).
Proof.
  split; intros Hrun.
  - rewrite executePython_policy, Hrun. cbn [python_policy done].
    eexists. split; [reflexivity|].
    unfold hides_window, no_error. cbn [logs error].
    rewrite andb_true_iff, no_lines_length.
    unfold Text.or_else.
    destruct (nonzero exitCode) eqn:En, (Text.truthy err) eqn:Et; cbn [orb];
      try rewrite Et; cbn [append Text.truthy negb].
    + apply nonzero_true in En. split; [intros [_ H]; discriminate|tauto].
    + apply nonzero_true in En. split; [intros [_ H]; discriminate|tauto].
    + apply truthy_true in Et. split; [intros [_ H]; discriminate|tauto].
    + apply nonzero_false in En. apply truthy_false in Et. tauto.
  - rewrite executeShell_policy, Hrun. cbn [shell_policy shell_close_policy done].
    eexists. split; [reflexivity|].
    unfold hides_window, no_error. cbn [logs error].
    rewrite andb_true_iff, no_lines_length.
    destruct (nonzero exitCode) eqn:En.
    + apply nonzero_true in En. cbn. split; intros H; [destruct H; discriminate|tauto].
    + apply nonzero_false in En. split.
      * intros [Hl _]. apply app_eq_nil in Hl. destruct Hl as [Ho He].
        apply map_eq_nil in He. tauto.
      * intros (_ & Ho & He). rewrite Ho, He. split; reflexivity.
Qed.

Lemma window_hides_after_child_witness :
  exists r, executeShell warns "echo warn >&2" [] = Resolved r /\
            (hides_window r = true
             <-> Some 0%Z = Some 0%Z /\ Text.lines EmptyString = []
                 /\ Text.lines (line "warn") = []).
Proof.
  exact (proj2 (window_hides_after_child warns "echo warn >&2" []
                  (Some 0%Z) EmptyString (line "warn")) eq_refl).
Defined.



(** ** The launcher window *)

Lemma window_on_alternates st ev :
  alternates (Window.isVisible st) (notices (snd (window_on st ev))) /\
  Window.isVisible (fst (window_on st ev))
  = last (notices (snd (window_on st ev))) (Window.isVisible st).
Proof.
  destruct st as [[|] [|]], ev as [sc|sc| | |]; cbn; auto.
Qed.

Lemma notices_app a b : notices (a ++ b) = (notices a ++ notices b)%list.
Proof.
  induction a as [|[x0 y0| | | |channel|w0 h0] a IH]; cbn [app notices]; auto.
  destruct (String.eqb channel "window-shown"); [cbn; now rewrite IH|].
  destruct (String.eqb channel "window-hidden"); [cbn; now rewrite IH|exact IH].
Qed.

Lemma last_cons_default (x : bool) (a : list bool) d d' :
  last (x :: a) d = last (x :: a) d'.
Proof.
  revert x. induction a as [|y a IH]; intros x; [reflexivity|].
  change (last (x :: y :: a) d) with (last (y :: a) d).
  change (last (x :: y :: a) d') with (last (y :: a) d'). apply IH.
Qed.

Lemma alternates_app visible a b :
  alternates visible a -> alternates (last a visible) b -> alternates visible (a ++ b).
Proof.
  revert visible. induction a as [|x a IH]; intros visible Ha Hb; [exact Hb|].
  destruct Ha as [-> Ha]. split; [reflexivity|]. apply IH; [exact Ha|].
  destruct a as [|y a]; [exact Hb|].
  change (last (negb visible :: y :: a) visible) with (last (y :: a) visible) in Hb.
  now rewrite (last_cons_default y a (negb visible) visible).
Qed.

Lemma last_app_cons (a : list bool) y b d d' :
  last (a ++ y :: b) d = last (y :: b) d'.
Proof.
  induction a as [|x a IH]; [apply last_cons_default|].
  rewrite <- IH. destruct a; reflexivity.
Qed.

Lemma last_app_default (a b : list bool) d : last (a ++ b) d = last b (last a d).
Proof.
  destruct b as [|y b]; [now rewrite app_nil_r|]. apply last_app_cons.
Qed.

(** X13: Whatever reaches the window handlers, in whatever order, the
    renderer is told "window-shown" and "window-hidden" strictly in
    turn, and [isVisible] always says which of the two it was told
    last. *)
Theorem shown_and_hidden_alternate events :
  forall st,
    alternates (Window.isVisible st) (notices (snd (window_run events st))) /\
    Window.isVisible (fst (window_run events st))
    = last (notices (snd (window_run events st))) (Window.isVisible st).
Proof.
  induction events as [|ev events IH]; intros st; [cbn; auto|].
  cbn [window_run].
  destruct (window_on_alternates st ev) as [Ha Hl].
  destruct (window_on st ev) as [st1 first]. cbn [fst snd] in Ha, Hl.
  destruct (IH st1) as [Ha' Hl'].
  destruct (window_run events st1) as [st2 others]. cbn [fst snd] in *.
  rewrite notices_app. split.
  - apply alternates_app; [exact Ha|]. now rewrite <- Hl.
  - now rewrite last_app_default, <- Hl.
Qed.

(** X14: While there is no window (before it is created, after it was
    closed), shortcut, tray and hide requests cause no command at all
    and leave [isVisible] as it was. *)
Theorem nothing_without_window events st :
  Window.mainWindow st = false ->
  ~ In Window.Activate events ->
  fst (window_run events st)
  = {| Window.mainWindow := false; Window.isVisible := Window.isVisible st |} /\
  snd (window_run events st) = [].
Proof.
  revert st. induction events as [|ev events IH]; intros [w v] Hw Hn;
    cbn in Hw; subst w; [cbn; auto|].
  assert (Hev : window_on {| Window.mainWindow := false; Window.isVisible := v |} ev
                = ({| Window.mainWindow := false; Window.isVisible := v |}, [])).
  { destruct ev as [sc|sc| | |], v; try reflexivity; exfalso; apply Hn; now left. }
  cbn [window_run]. rewrite Hev.
  destruct (IH {| Window.mainWindow := false; Window.isVisible := v |} eq_refl)
    as [Hs Hc]; [intros H; apply Hn; now right|].
  destruct (window_run events _) as [st2 others]. cbn [fst snd] in *.
  now subst.
Qed.

Lemma nothing_without_window_witness :
  snd (window_run [Window.Toggle {| Window.x := 0; Window.y := 0;
                                    Window.width := 1920; Window.windowWidth := 800 |};
                   Window.HideRequest]
         {| Window.mainWindow := false; Window.isVisible := true |}) = [].
Proof.
  apply (nothing_without_window
           [Window.Toggle {| Window.x := 0; Window.y := 0;
                             Window.width := 1920; Window.windowWidth := 800 |};
            Window.HideRequest]
           {| Window.mainWindow := false; Window.isVisible := true |} eq_refl).
  simpl. intros [H|[H|H]]; try discriminate; contradiction.
Defined.

(** X15: The window is put 50 pixels below the top of the work area of the
    display under the cursor and centred across it: the free space to
    its right is that to its left, or one pixel more; this also holds
    when the window is wider than the display. *)
Theorem window_is_centred sc st px py :
  In (Window.setPosition px py) (snd (showWindow sc st)) ->
  py = (Window.y sc + 50)%Z /\
  (let left := px - Window.x sc in
   let right := Window.x sc + Window.width sc - (px + Window.windowWidth sc) in
   left <= right <= left + 1)%Z.
Proof.
  unfold showWindow. destruct (Window.mainWindow st); cbn [snd In]; [|tauto].
  intros [H|[H|[H|[H|H]]]]; try discriminate; [|contradiction].
  injection H as <- <-. unfold windowX, windowY. split; [reflexivity|].
  cbn zeta.
  pose proof (Z.div_mod (Window.width sc - Window.windowWidth sc) 2 ltac:(lia)).
  pose proof (Z.mod_pos_bound (Window.width sc - Window.windowWidth sc) 2 ltac:(lia)).
  lia.
Qed.

Lemma window_is_centred_witness :
  (307 = 257 + 50 /\ 560 - 0 <= 0 + 1921 - (560 + 800) <= 560 - 0 + 1)%Z.
Proof.
  apply (window_is_centred
           {| Window.x := 0; Window.y := 257; Window.width := 1921;
              Window.windowWidth := 800 |}
           {| Window.mainWindow := true; Window.isVisible := false |} 560 307)%Z.
  left. reflexivity.
Defined.

(** X16: Asking for the settings while the window is hidden shows it and
    always ends in the settings view, whatever view the renderer was in;
    asking while it is visible flips the view: out of the settings when
    they are open, into them otherwise. *)
Theorem open_settings_view sc visible view :
  let st := {| Window.mainWindow := true; Window.isVisible := visible |} in
  Window.isVisible (fst (openSettings sc st)) = true /\
  view_after (snd (openSettings sc st)) view
  = if visible
    then match view with settings_view => list_view | _ => settings_view end
    else settings_view.
Proof.
  destruct visible, view; cbn; auto.
Qed.

(** ** The global shortcut and the settings file *)

(** X17: [registerGlobalShortcut] answers true exactly when the wanted
    shortcut was accepted, and then it is the only one held and
    [currentShortcut] names it.  In every case at most one shortcut is
    held afterwards, an accepted one, the wanted one or "Alt+Space";
    after the answer false the wanted one is not held, and when it was
    not "Alt+Space" itself [currentShortcut] says "Alt+Space" whether or
    not that fallback was accepted. *)
Theorem shortcut_registration os wanted st :
  let answer := fst (registerGlobalShortcut os wanted st) in
  let after := snd (registerGlobalShortcut os wanted st) in
  (answer = Some true <-> os wanted = Accepted) /\
  (answer = Some true ->
   registered after = [wanted] /\ currentShortcut after = wanted) /\
  (List.length (registered after) <= 1)%nat /\
  (forall s, In s (registered after) ->
             os s = Accepted /\ (s = wanted \/ s = "Alt+Space")) /\
  (answer = Some false -> ~ In wanted (registered after)) /\
  (answer = Some false -> wanted <> "Alt+Space" ->
   currentShortcut after = "Alt+Space" /\
   (In "Alt+Space" (registered after) <-> os "Alt+Space" = Accepted)).
Proof.
  cbn zeta. unfold registerGlobalShortcut.
  destruct (os wanted) eqn:Ew;
    [|destruct (String.eqb_spec wanted "Alt+Space") as [Heq|Hne]; cbn [negb];
      [|destruct (os "Alt+Space") eqn:Ea]..];
    cbn [fst snd registered currentShortcut List.length In];
    intuition (subst; try congruence; try discriminate; try lia; auto).
Qed.

Lemma shortcut_registration_witness :
  currentShortcut
    (snd (registerGlobalShortcut (fun _ => Refused) "Alt+S"
            {| registered := ["Alt+L"]; currentShortcut := "Alt+L" |}))
  = "Alt+Space" /\
  (In "Alt+Space"
      (registered
         (snd (registerGlobalShortcut (fun _ => Refused) "Alt+S"
                 {| registered := ["Alt+L"]; currentShortcut := "Alt+L" |})))
   <-> Refused = Accepted).
Proof.
  apply (shortcut_registration (fun _ => Refused) "Alt+S"
           {| registered := ["Alt+L"]; currentShortcut := "Alt+L" |}).
  - reflexivity.
  - discriminate.
Defined.

(** X18: The "save-settings" handler answers what the registration answered.
    When that is not true, the settings file is left as it was and the
    window is not resized, although a new size was asked for; when it is
    true the answer stays true even if the file could not be written,
    and the file is then unchanged as well. *)
Theorem save_settings_needs_the_shortcut os json writable wanted width height m :
  let out := save_settings os json writable wanted width height m in
  let answer := fst (fst out) in
  let after := snd (fst out) in
  answer = fst (registerGlobalShortcut os wanted (shortcuts m)) /\
  (answer <> Some true -> settings_file after = settings_file m /\ snd out = []) /\
  (answer = Some true -> writable = false -> settings_file after = settings_file m) /\
  (answer = Some true -> writable = true ->
   settings_file after
   = Some (stringify json
             (spread (loadSettings json (settings_file m))
                {| shortcut_opt := Some wanted; windowWidth_opt := width;
                   windowHeight_opt := height |}))).
Proof.
  cbn zeta. unfold save_settings.
  destruct (registerGlobalShortcut os wanted (shortcuts m)) as [[[|]|] sc];
    cbn [fst].
  - destruct (has_window m && asks_size _); cbn [fst snd settings_file];
      repeat split; try congruence;
        intros _ Hw; unfold saveSettings; now rewrite Hw.
  - cbn [fst snd settings_file]. repeat split; congruence.
  - cbn [fst snd settings_file]. repeat split; congruence.
Qed.

Lemma save_settings_needs_the_shortcut_witness :
  settings_file
    (snd (fst (save_settings (fun _ => Refused)
                 (one_text DEFAULT_SETTINGS) true "Alt+S" (Some 1000%Z) (Some 600%Z)
                 {| shortcuts := {| registered := ["Alt+L"]; currentShortcut := "Alt+L" |};
                    settings_file := Some "saved"; has_window := true |})))
  = Some "saved" /\
  snd (save_settings (fun _ => Refused)
         (one_text DEFAULT_SETTINGS) true "Alt+S" (Some 1000%Z) (Some 600%Z)
         {| shortcuts := {| registered := ["Alt+L"]; currentShortcut := "Alt+L" |};
            settings_file := Some "saved"; has_window := true |}) = [].
Proof.
  apply (save_settings_needs_the_shortcut (fun _ => Refused)
           (one_text DEFAULT_SETTINGS) true "Alt+S" (Some 1000%Z) (Some 600%Z)
           {| shortcuts := {| registered := ["Alt+L"]; currentShortcut := "Alt+L" |};
              settings_file := Some "saved"; has_window := true |}).
  discriminate.
Defined.

(** X19: When the text written reads back as what was written, loading
    after a save gives the settings as they were before with the saved
    keys replaced: keys left out of the save keep their value, and a
    missing or unreadable file counts as the defaults (Alt+Space, 800 by
    450). *)
Theorem settings_round_trip json settings file :
  parse json (stringify json (spread (loadSettings json file) settings))
  = Some (complete (spread (loadSettings json file) settings)) ->
  loadSettings json (saveSettings json true settings file)
  = spread (loadSettings json file) settings /\
  (file = None \/ (exists data, file = Some data /\ parse json data = None) ->
   loadSettings json (saveSettings json true settings file)
   = spread DEFAULT_SETTINGS settings).
Proof.
  intros Hrt.
  assert (Hl : loadSettings json (saveSettings json true settings file)
               = spread (loadSettings json file) settings).
  { unfold saveSettings. cbn [loadSettings]. rewrite Hrt.
    now destruct (spread (loadSettings json file) settings). }
  split; [exact Hl|].
  intros [->|[data [-> Hp]]]; rewrite Hl; cbn [loadSettings]; [reflexivity|].
  now rewrite Hp.
Qed.

Lemma settings_round_trip_witness :
  loadSettings (one_text {| shortcut := "Alt+S"; windowWidth := 800; windowHeight := 450 |})
    (saveSettings
       (one_text {| shortcut := "Alt+S"; windowWidth := 800; windowHeight := 450 |})
       true
       {| shortcut_opt := Some "Alt+S"; windowWidth_opt := None;
          windowHeight_opt := None |}
       None)
  = {| shortcut := "Alt+S"; windowWidth := 800; windowHeight := 450 |}.
Proof.
  exact (proj1 (settings_round_trip
                  (one_text {| shortcut := "Alt+S"; windowWidth := 800;
                               windowHeight := 450 |})
                  {| shortcut_opt := Some "Alt+S"; windowWidth_opt := None;
                     windowHeight_opt := None |}
                  None eq_refl)).
Defined.

(** ** Reordering the store *)

Lemma includes_In ids x : includes ids x = true <-> In x ids.
Proof.
  unfold includes. rewrite existsb_exists. split.
  - intros [y [Hy He]]. apply String.eqb_eq in He. now subst.
  - intros H. exists x. split; [exact H|apply String.eqb_refl].
Qed.

Lemma includes_not_In ids x : includes ids x = false <-> ~ In x ids.
Proof.
  rewrite <- includes_In. destruct (includes ids x); split; congruence.
Qed.

Section Reorder.

Context {T : Type} (id_of : T -> string).

Lemma Map_get_Some items key s :
  Map_get id_of items key = Some s -> In s items /\ id_of s = key.
Proof.
  unfold Map_get. intros H. apply find_some in H. destruct H as [Hin He].
  apply in_rev in Hin. apply String.eqb_eq in He. auto.
Qed.

Lemma Map_get_None items key :
  Map_get id_of items key = None -> ~ In key (map id_of items).
Proof.
  unfold Map_get. intros H Hin. apply in_map_iff in Hin.
  destruct Hin as [s [Hs Hin]]. apply in_rev in Hin.
  pose proof (find_none _ _ H s Hin) as Hf. cbn in Hf.
  rewrite Hs, String.eqb_refl in Hf. discriminate.
Qed.

Lemma NoDup_map_same items a b :
  NoDup (map id_of items) -> In a items -> In b items -> id_of a = id_of b -> a = b.
Proof.
  induction items as [|x items IH]; intros Hnd Ha Hb He; [destruct Ha|].
  cbn [map] in Hnd. inversion Hnd as [|? ? Hx Hnd']; subst.
  destruct Ha as [->|Ha], Hb as [->|Hb]; auto.
  - exfalso. apply Hx. rewrite He. now apply in_map.
  - exfalso. apply Hx. rewrite <- He. now apply in_map.
Qed.

Lemma Map_get_In items s :
  NoDup (map id_of items) -> In s items -> Map_get id_of items (id_of s) = Some s.
Proof.
  intros Hnd Hin. destruct (Map_get id_of items (id_of s)) as [s'|] eqn:E.
  - apply Map_get_Some in E. destruct E as [Hin' He]. f_equal.
    now apply (NoDup_map_same items).
  - exfalso. apply Map_get_None in E. apply E. now apply in_map.
Qed.

Lemma reordered_ids ids items :
  map id_of (flat_map (fun key => match Map_get id_of items key with
                                  | Some s => [s]
                                  | None => []
                                  end) ids)
  = filter (includes (map id_of items)) ids.
Proof.
  induction ids as [|k ids IH]; [reflexivity|].
  cbn [flat_map filter]. rewrite map_app, IH.
  destruct (Map_get id_of items k) as [s|] eqn:E.
  - apply Map_get_Some in E. destruct E as [Hin <-].
    assert (Hi : includes (map id_of items) (id_of s) = true)
      by (apply includes_In; now apply in_map).
    now rewrite Hi.
  - apply Map_get_None in E. apply includes_not_In in E. now rewrite E.
Qed.

Lemma map_filter_ids (p : string -> bool) items :
  map id_of (filter (fun s => p (id_of s)) items) = filter p (map id_of items).
Proof.
  induction items as [|x items IH]; [reflexivity|].
  cbn [filter map]. destruct (p (id_of x)); cbn [map]; now rewrite IH.
Qed.

Lemma reorder_ids ids items :
  map id_of (reorder id_of ids items)
  = (filter (includes (map id_of items)) ids
     ++ filter (fun k => negb (includes ids k)) (map id_of items))%list.
Proof.
  unfold reorder. rewrite map_app, reordered_ids. f_equal.
  apply (map_filter_ids (fun k => negb (includes ids k))).
Qed.

Lemma NoDup_map_NoDup (items : list T) : NoDup (map id_of items) -> NoDup items.
Proof.
  induction items as [|x items IH]; intros H; [constructor|].
  cbn [map] in H. inversion H as [|? ? Hx Hnd]; subst. constructor; [|auto].
  intros Hin. apply Hx. now apply in_map.
Qed.

Lemma reorder_In ids items s :
  NoDup (map id_of items) -> (In s (reorder id_of ids items) <-> In s items).
Proof.
  intros Hnd. unfold reorder. rewrite in_app_iff, in_flat_map, filter_In. split.
  - intros [[k [Hk Hs]]|[Hs _]]; [|exact Hs].
    destruct (Map_get id_of items k) as [s'|] eqn:E; [|destruct Hs].
    destruct Hs as [<-|[]]. now apply Map_get_Some in E.
  - intros Hin. destruct (includes ids (id_of s)) eqn:Ei.
    + left. exists (id_of s). split; [now apply includes_In|].
      rewrite (Map_get_In items s Hnd Hin). now left.
    + right. split; [exact Hin|reflexivity].
Qed.

Lemma reorder_Permutation ids items :
  NoDup (map id_of items) -> NoDup ids ->
  Permutation (reorder id_of ids items) items.
Proof.
  intros Hnd Hids. apply NoDup_Permutation.
  - apply NoDup_map_NoDup. rewrite reorder_ids.
    apply NoDup_app. repeat split.
    + now apply NoDup_filter.
    + now apply NoDup_filter.
    + intros k Hk Hk'. apply filter_In in Hk, Hk'.
      destruct Hk as [Hk _], Hk' as [_ Hk'].
      apply includes_In in Hk. rewrite Hk in Hk'. discriminate.
  - now apply NoDup_map_NoDup.
  - intros s. now apply reorder_In.
Qed.

End Reorder.

(** X20: [reorderScripts] puts first the scripts named in the list, in the
    order of the list (ids that name no script are skipped), then every
    other script in the order they had; folders and the folder map are
    untouched.  When no two scripts share an id and the list names none
    twice, no script is lost or doubled.  [reorderFolders] does the same
    for folders. *)
Theorem reorder_keeps_everything ids st :
  map Store.script_id (Store.scripts (reorderScripts ids st))
  = (filter (includes (map Store.script_id (Store.scripts st))) ids
     ++ filter (fun k => negb (includes ids k))
               (map Store.script_id (Store.scripts st)))%list /\
  map Store.folder_id (Store.folders (reorderFolders ids st))
  = (filter (includes (map Store.folder_id (Store.folders st))) ids
     ++ filter (fun k => negb (includes ids k))
               (map Store.folder_id (Store.folders st)))%list /\
  (NoDup ids -> NoDup (map Store.script_id (Store.scripts st)) ->
   Permutation (Store.scripts (reorderScripts ids st)) (Store.scripts st)) /\
  (NoDup ids -> NoDup (map Store.folder_id (Store.folders st)) ->
   Permutation (Store.folders (reorderFolders ids st)) (Store.folders st)).
Proof.
  cbn [reorderScripts reorderFolders Store.scripts Store.folders].
  repeat split; try apply reorder_ids; intros; now apply reorder_Permutation.
Qed.

Lemma reorder_keeps_everything_witness :
  Permutation (Store.scripts (reorderScripts ["c"; "zz"; "a"] three_scripts))
              (Store.scripts three_scripts).
Proof.
  apply (reorder_keeps_everything ["c"; "zz"; "a"] three_scripts).
  - repeat constructor; simpl; intuition discriminate.
  - repeat constructor; simpl; intuition discriminate.
Defined.

(** ** Dragging an item onto another *)

Lemma firstn_length_app {A} (l r : list A) : firstn (List.length l) (l ++ r) = l.
Proof. induction l as [|x l IH]; [destruct r; reflexivity|]. cbn. now rewrite IH. Qed.

Lemma skipn_length_app {A} (l r : list A) : skipn (List.length l) (l ++ r) = r.
Proof. induction l as [|x l IH]; [reflexivity|exact IH]. Qed.

Lemma splice_in_app l x r : splice_in (List.length l) x (l ++ r) = (l ++ x :: r)%list.
Proof. unfold splice_in. now rewrite firstn_length_app, skipn_length_app. Qed.

Lemma splice_out_app l x r : splice_out (List.length l) (l ++ x :: r) = (l ++ r)%list.
Proof.
  unfold splice_out. rewrite firstn_length_app. f_equal.
  change (S (List.length l)) with (1 + List.length l)%nat.
  rewrite <- skipn_skipn, skipn_length_app. reflexivity.
Qed.

Lemma indexOf_app l x r : ~ In x l -> indexOf x (l ++ x :: r) = Some (List.length l).
Proof.
  induction l as [|y l IH]; intros Hn; cbn [app indexOf List.length].
  - now rewrite String.eqb_refl.
  - destruct (String.eqb_spec y x) as [->|Hy]; [exfalso; apply Hn; now left|].
    rewrite IH; [reflexivity|]. intros H. apply Hn. now right.
Qed.

Lemma indexOf_None x l : indexOf x l = None <-> ~ In x l.
Proof.
  induction l as [|y l IH]; cbn [indexOf In]; [tauto|].
  destruct (String.eqb_spec y x) as [->|Hy].
  - split; [discriminate|]. intros H. exfalso. apply H. now left.
  - destruct (indexOf x l); split; intros H; try discriminate.
    + exfalso. apply H. right. apply Decidable.not_not; [|intros H'; apply IH in H'; discriminate].
      unfold Decidable.decidable. destruct (in_dec string_dec x l); auto.
    + intros [H'|H']; [congruence|]. now apply IH.
    + reflexivity.
Qed.

Lemma split_first (x : string) l : In x l -> exists a b, l = (a ++ x :: b)%list /\ ~ In x a.
Proof.
  induction l as [|y l IH]; intros Hin; [destruct Hin|].
  destruct (string_dec y x) as [->|Hy].
  - exists [], l. split; [reflexivity|intros []].
  - destruct Hin as [H|H]; [congruence|].
    destruct (IH H) as [a [b [-> Ha]]]. exists (y :: a), b. split; [reflexivity|].
    intros [H'|H']; [congruence|contradiction].
Qed.

Lemma filter_not_id (x : string) l :
  ~ In x l -> filter (fun y => negb (String.eqb y x)) l = l.
Proof.
  induction l as [|y l IH]; intros Hn; [reflexivity|]. cbn [filter].
  destruct (String.eqb_spec y x) as [->|Hy]; [exfalso; apply Hn; now left|].
  cbn [negb]. rewrite IH; [reflexivity|]. intros H. apply Hn. now right.
Qed.

Lemma filter_drops (x : string) a b :
  ~ In x a -> ~ In x b ->
  filter (fun y => negb (String.eqb y x)) (a ++ x :: b) = (a ++ b)%list.
Proof.
  intros Ha Hb. rewrite filter_app. cbn [filter]. rewrite String.eqb_refl. cbn [negb].
  now rewrite !filter_not_id.
Qed.

Lemma newOrder_next_to order dragId dropId pos :
  NoDup order -> In dragId order -> In dropId order -> dragId <> dropId ->
  exists l1 l2,
    filter (fun y => negb (String.eqb y dragId)) order = (l1 ++ dropId :: l2)%list /\
    newOrder order dragId dropId pos
    = Some (l1 ++ side_by_side pos dragId dropId ++ l2)%list.
Proof.
  intros Hnd Hdrag Hdrop Hne.
  destruct (split_first dragId order Hdrag) as [a [b [-> Ha]]].
  assert (Hb : ~ In dragId b).
  { apply NoDup_remove_2 in Hnd. intros H. apply Hnd. apply in_or_app. now right. }
  rewrite (filter_drops dragId a b Ha Hb).
  unfold newOrder. rewrite (indexOf_app a dragId b Ha), splice_out_app.
  apply in_app_or in Hdrop. destruct Hdrop as [Hdrop|[Hdrop|Hdrop]]; [|congruence|].
  + destruct (split_first dropId a Hdrop) as [a1 [a2 [-> Ha1]]].
    exists a1, (a2 ++ b)%list. split; [now rewrite <- app_assoc|].
    rewrite length_app. cbn [List.length].
    repeat rewrite <- app_assoc. cbn [app].
    rewrite (indexOf_app a1 dropId _ Ha1).
    destruct pos; cbn [side_by_side app].
    * replace (_ <? _)%nat with false by (symmetry; apply Nat.ltb_ge; lia).
      now rewrite splice_in_app.
    * replace (_ <? _)%nat with false by (symmetry; apply Nat.ltb_ge; lia).
      replace (List.length a1 + 1)%nat with (List.length (a1 ++ [dropId]))
        by (rewrite length_app; reflexivity).
      change (a1 ++ dropId :: a2 ++ b)%list
        with (a1 ++ [dropId] ++ a2 ++ b)%list.
      rewrite (app_assoc a1 [dropId]), splice_in_app.
      now rewrite <- app_assoc.
  + destruct (split_first dropId b Hdrop) as [b1 [b2 [-> Hb1]]].
    exists (a ++ b1)%list, b2. split; [now rewrite <- app_assoc|].
    assert (Hd : ~ In dropId (a ++ dragId :: b1)).
    { intros H. apply in_app_or in H. destruct H as [H|[H|H]]; [|congruence|tauto].
      apply NoDup_remove_1 in Hnd. rewrite app_assoc in Hnd.
      apply NoDup_remove_2 in Hnd. apply Hnd. apply in_or_app. left.
      apply in_or_app. now left. }
    assert (Hi : indexOf dropId (a ++ dragId :: b1 ++ dropId :: b2)
                 = Some (List.length a + S (List.length b1))%nat).
    { change (a ++ dragId :: b1 ++ dropId :: b2)%list
        with (a ++ (dragId :: b1) ++ dropId :: b2)%list.
      rewrite (app_assoc a (dragId :: b1)).
      rewrite (indexOf_app _ dropId b2 Hd), length_app. reflexivity. }
    rewrite Hi.
    destruct pos; cbn [side_by_side app].
    * replace (_ <? _)%nat with true by (symmetry; apply Nat.ltb_lt; lia).
      replace (List.length a + S (List.length b1) - 1)%nat
        with (List.length (a ++ b1)) by (rewrite length_app; lia).
      rewrite (app_assoc a b1), splice_in_app.
      now rewrite <- app_assoc.
    * replace (_ <? _)%nat with true by (symmetry; apply Nat.ltb_lt; lia).
      replace (List.length a + S (List.length b1) + 1 - 1)%nat
        with (List.length ((a ++ b1) ++ [dropId]))
        by (rewrite !length_app; cbn; lia).
      change (a ++ b1 ++ dropId :: b2)%list with (a ++ b1 ++ [dropId] ++ b2)%list.
      rewrite (app_assoc a b1), (app_assoc (a ++ b1) [dropId]), splice_in_app.
      now rewrite <- !app_assoc.
Qed.

(** X21: Dropping an item of a list without repeats onto another one takes
    it out of its place and puts it next to the target, just before or
    just after it as asked; the other items keep their order.  Dropping
    an item onto itself changes nothing, and nothing is computed when
    either of the two is not in the list. *)
Theorem drop_puts_item_next_to_target order dragId dropId pos :
  (NoDup order -> In dragId order -> In dropId order -> dragId <> dropId ->
   exists l1 l2,
     filter (fun y => negb (String.eqb y dragId)) order = (l1 ++ dropId :: l2)%list /\
     newOrder order dragId dropId pos
     = Some (l1 ++ side_by_side pos dragId dropId ++ l2)%list) /\
  (In dragId order -> newOrder order dragId dragId pos = Some order) /\
  (newOrder order dragId dropId pos = None <-> ~ In dragId order \/ ~ In dropId order).
Proof.
  split; [|split].
  - apply newOrder_next_to.
  - intros Hdrag.
    destruct (split_first dragId order Hdrag) as [a [b [-> Ha]]].
    unfold newOrder. rewrite (indexOf_app a dragId b Ha), splice_out_app.
    destruct pos.
    + rewrite Nat.ltb_irrefl. now rewrite splice_in_app.
    + replace (_ <? _)%nat with true by (symmetry; apply Nat.ltb_lt; lia).
      replace (List.length a + 1 - 1)%nat with (List.length a) by lia.
      now rewrite splice_in_app.
  - unfold newOrder.
    destruct (indexOf dragId order) eqn:E1.
    + destruct (indexOf dropId order) eqn:E2.
      * split; [discriminate|]. intros [H|H]; apply indexOf_None in H; congruence.
      * split; [|reflexivity]. intros _. right. now apply indexOf_None.
    + split; [|reflexivity]. intros _. left. now apply indexOf_None.
Qed.

Lemma drop_puts_item_next_to_target_witness :
  exists l1 l2,
    filter (fun y => negb (String.eqb y "a")) ["a"; "b"; "c"; "d"]
    = (l1 ++ "c" :: l2)%list /\
    newOrder ["a"; "b"; "c"; "d"] "a" "c" Store.after
    = Some (l1 ++ side_by_side Store.after "a" "c" ++ l2)%list.
Proof.
  apply (drop_puts_item_next_to_target ["a"; "b"; "c"; "d"] "a" "c" Store.after).
  - repeat constructor; simpl; intuition discriminate.
  - simpl; auto.
  - simpl; auto.
  - discriminate.
Defined.

(** ** Moving a script next to another *)

Lemma set_key_same {V} (map : list (string * V)) key value :
  get_key key (set_key map key value) = Some value.
Proof.
  induction map as [|[k v] map IH]; cbn [set_key get_key].
  - now rewrite String.eqb_refl.
  - destruct (String.eqb_spec k key) as [->|Hk]; cbn [get_key].
    + now rewrite String.eqb_refl.
    + apply String.eqb_neq in Hk. now rewrite Hk.
Qed.

Lemma set_key_other {V} (map : list (string * V)) key value other :
  other <> key -> get_key other (set_key map key value) = get_key other map.
Proof.
  intros Hn. induction map as [|[k v] map IH]; cbn [set_key get_key].
  - destruct (String.eqb_spec key other); [congruence|reflexivity].
  - destruct (String.eqb_spec k key) as [->|Hk]; cbn [get_key].
    + destruct (String.eqb_spec key other); [congruence|reflexivity].
    + destruct (String.eqb_spec k other); [reflexivity|exact IH].
Qed.

Lemma split_first_script key items :
  In key (map Store.script_id items) ->
  exists l t r,
    items = (l ++ t :: r)%list /\ Store.script_id t = key /\
    ~ In key (map Store.script_id l).
Proof.
  induction items as [|y items IH]; intros Hin; [destruct Hin|].
  destruct (string_dec (Store.script_id y) key) as [Hy|Hy].
  - exists [], y, items. repeat split; [exact Hy|intros []].
  - destruct Hin as [H|H]; [congruence|].
    destruct (IH H) as [l [t [r [-> [Ht Hl]]]]].
    exists (y :: l), t, r. repeat split; [exact Ht|].
    intros [H'|H']; [congruence|contradiction].
Qed.

Lemma find_first key l t r :
  Store.script_id t = key -> ~ In key (map Store.script_id l) ->
  find (fun s => String.eqb (Store.script_id s) key) (l ++ t :: r) = Some t.
Proof.
  intros Ht. induction l as [|y l IH]; intros Hl; cbn [app find].
  - now rewrite Ht, String.eqb_refl.
  - destruct (String.eqb_spec (Store.script_id y) key) as [Hy|Hy].
    + exfalso. apply Hl. now left.
    + apply IH. intros H. apply Hl. now right.
Qed.

Lemma findIndex_first key l t r :
  Store.script_id t = key -> ~ In key (map Store.script_id l) ->
  findIndex key (l ++ t :: r) = Some (List.length l).
Proof.
  intros Ht. induction l as [|y l IH]; intros Hl; cbn [app findIndex List.length].
  - now rewrite Ht, String.eqb_refl.
  - destruct (String.eqb_spec (Store.script_id y) key) as [Hy|Hy].
    + exfalso. apply Hl. now left.
    + rewrite IH; [reflexivity|]. intros H. apply Hl. now right.
Qed.

Lemma findIndex_None key items :
  ~ In key (map Store.script_id items) -> findIndex key items = None.
Proof.
  induction items as [|y items IH]; intros Hn; [reflexivity|]. cbn [findIndex].
  destruct (String.eqb_spec (Store.script_id y) key) as [Hy|Hy].
  - exfalso. apply Hn. now left.
  - rewrite IH; [reflexivity|]. intros H. apply Hn. now right.
Qed.

Lemma filter_keeps_others key items :
  ~ In key (map Store.script_id items) ->
  filter (fun s => negb (String.eqb (Store.script_id s) key)) items = items.
Proof.
  induction items as [|y items IH]; intros Hn; [reflexivity|]. cbn [filter].
  destruct (String.eqb_spec (Store.script_id y) key) as [Hy|Hy].
  - exfalso. apply Hn. now left.
  - cbn [negb]. rewrite IH; [reflexivity|]. intros H. apply Hn. now right.
Qed.

Lemma filter_takes_out key l t r :
  Store.script_id t = key ->
  ~ In key (map Store.script_id l) -> ~ In key (map Store.script_id r) ->
  filter (fun s => negb (String.eqb (Store.script_id s) key)) (l ++ t :: r)
  = (l ++ r)%list.
Proof.
  intros Ht Hl Hr. rewrite filter_app. cbn [filter].
  rewrite Ht, String.eqb_refl. cbn [negb]. now rewrite !filter_keeps_others.
Qed.

Lemma in_ids_filter key other items :
  other <> key -> In other (map Store.script_id items) ->
  In other (map Store.script_id
              (filter (fun s => negb (String.eqb (Store.script_id s) key)) items)).
Proof.
  intros Hn Hin. apply in_map_iff in Hin. destruct Hin as [s [Hs Hin]].
  apply in_map_iff. exists s. split; [exact Hs|]. apply filter_In. split; [exact Hin|].
  subst other. apply negb_true_iff. now apply String.eqb_neq.
Qed.

(** X22: [moveScriptToFolderAtPosition] files the script under the folder
    and, when no two scripts share an id, moves it right before or
    right after the target, every other script keeping its order and
    none being lost.  When the script does not exist the state is handed
    back as it was, the folder map included; when only the target is
    missing the script goes to the end of the list. *)
Theorem move_puts_script_next_to_target scriptId folderId targetId pos prev :
  let next := moveScriptToFolderAtPosition scriptId folderId targetId pos prev in
  (~ In scriptId (map Store.script_id (Store.scripts prev)) -> next = prev) /\
  (NoDup (map Store.script_id (Store.scripts prev)) ->
   In scriptId (map Store.script_id (Store.scripts prev)) ->
   get_key scriptId (Store.scriptFolderMap next) = Some folderId /\
   (forall other, other <> scriptId ->
      get_key other (Store.scriptFolderMap next)
      = get_key other (Store.scriptFolderMap prev)) /\
   Permutation (Store.scripts next) (Store.scripts prev) /\
   exists moving,
     In moving (Store.scripts prev) /\ Store.script_id moving = scriptId /\
     let others := filter (fun s => negb (String.eqb (Store.script_id s) scriptId))
                          (Store.scripts prev) in
     (targetId <> scriptId ->
      In targetId (map Store.script_id (Store.scripts prev)) ->
      exists l1 target l2,
        others = (l1 ++ target :: l2)%list /\ Store.script_id target = targetId /\
        Store.scripts next = (l1 ++ side_by_side pos moving target ++ l2)%list) /\
     (~ In targetId (map Store.script_id others) ->
      Store.scripts next = (others ++ [moving])%list)).
Proof.
  cbn zeta. split.
  - intros Hn. unfold moveScriptToFolderAtPosition.
    destruct (find _ (Store.scripts prev)) as [m|] eqn:E; [|reflexivity].
    apply find_some in E. destruct E as [Hin He]. apply String.eqb_eq in He.
    exfalso. apply Hn. rewrite <- He. now apply in_map.
  - intros Hnd Hin.
    destruct (split_first_script scriptId _ Hin) as [a [m [b [Hs [Hm Ha]]]]].
    assert (Hb : ~ In scriptId (map Store.script_id b)).
    { rewrite Hs, map_app in Hnd. cbn [map] in Hnd. rewrite Hm in Hnd.
      apply NoDup_remove_2 in Hnd. intros H. apply Hnd. apply in_or_app. now right. }
    unfold moveScriptToFolderAtPosition.
    rewrite Hs, (find_first scriptId a m b Hm Ha), (filter_takes_out scriptId a m b Hm Ha Hb).
    assert (Hperm : forall l1 l2, (a ++ b)%list = (l1 ++ l2)%list ->
                                  Permutation (l1 ++ m :: l2) (a ++ m :: b)).
    { intros l1 l2 He. rewrite <- !Permutation_middle. now rewrite He. }
    destruct (findIndex targetId (a ++ b)) as [i|] eqn:Ei.
    + (* the target is among the others *)
      assert (Hti : In targetId (map Store.script_id (a ++ b))).
      { destruct (in_dec string_dec targetId (map Store.script_id (a ++ b))) as [H|H];
          [exact H|]. rewrite (findIndex_None _ _ H) in Ei. discriminate. }
      destruct (split_first_script targetId _ Hti) as [l1 [t [l2 [Hab [Ht Hl1]]]]].
      rewrite Hab, (findIndex_first targetId l1 t l2 Ht Hl1) in Ei.
      injection Ei as <-. cbn [Store.scriptFolderMap Store.scripts].
      split; [apply set_key_same|]. split; [intros other Ho; now apply set_key_other|].
      split.
      * rewrite Hab. destruct pos.
        -- rewrite firstn_length_app, skipn_length_app. now apply Hperm.
        -- replace (List.length l1 + 1)%nat with (List.length (l1 ++ [t]))
             by (rewrite length_app; reflexivity).
           change (l1 ++ t :: l2)%list with (l1 ++ [t] ++ l2)%list.
           rewrite (app_assoc l1 [t]), firstn_length_app, skipn_length_app.
           apply Hperm. now rewrite Hab, <- app_assoc.
      * exists m. split; [apply in_or_app; right; now left|]. split; [exact Hm|].
        split.
        -- intros _ _. exists l1, t, l2. split; [exact Hab|]. split; [exact Ht|].
           rewrite Hab. destruct pos; cbn [side_by_side app].
           ++ now rewrite firstn_length_app, skipn_length_app.
           ++ replace (List.length l1 + 1)%nat with (List.length (l1 ++ [t]))
                by (rewrite length_app; reflexivity).
              change (l1 ++ t :: l2)%list with (l1 ++ [t] ++ l2)%list.
              rewrite (app_assoc l1 [t]), firstn_length_app, skipn_length_app.
              now rewrite <- app_assoc.
        -- intros Hno. exfalso. now apply Hno.
    + (* no target: to the end *)
      cbn [Store.scriptFolderMap Store.scripts].
      split; [apply set_key_same|]. split; [intros other Ho; now apply set_key_other|].
      split.
      * rewrite <- (app_nil_r ((a ++ b) ++ [m])), <- app_assoc. cbn [app].
        apply Hperm. now rewrite app_nil_r.
      * exists m. split; [apply in_or_app; right; now left|]. split; [exact Hm|].
        split; [|reflexivity].
        intros Hne Hti. exfalso.
        assert (H : In targetId (map Store.script_id (a ++ b))).
        { rewrite <- (filter_takes_out scriptId a m b Hm Ha Hb).
          apply in_ids_filter; assumption. }
        destruct (split_first_script targetId _ H) as [l1 [t [l2 [Hab [Ht Hl1]]]]].
        rewrite Hab, (findIndex_first targetId l1 t l2 Ht Hl1) in Ei. discriminate.
Qed.

Lemma move_puts_script_next_to_target_witness :
  get_key "a"
    (Store.scriptFolderMap
       (moveScriptToFolderAtPosition "a" (Some "f1") "c" Store.after three_scripts))
  = Some (Some "f1") /\
  Permutation
    (Store.scripts
       (moveScriptToFolderAtPosition "a" (Some "f1") "c" Store.after three_scripts))
    (Store.scripts three_scripts).
Proof.
  destruct (proj2 (move_puts_script_next_to_target "a" (Some "f1") "c" Store.after
                     three_scripts)
              ltac:(repeat constructor; simpl; intuition discriminate)
              ltac:(simpl; auto)) as (Hmap & _ & Hperm & _).
  split; [exact Hmap|exact Hperm].
Defined.

(** ** A drop inside a folder, from the handler to the store *)












(** ** Deleting a folder *)

Lemma mark_child_cases set changed f :
  (mark_child (set, changed) f = (set, changed) /\
   forall parent, Store.parentId f = Some parent -> Text.truthy parent = true ->
                  In parent set -> In (Store.folder_id f) set) \/
  (exists parent,
     Store.parentId f = Some parent /\ Text.truthy parent = true /\
     In parent set /\ ~ In (Store.folder_id f) set /\
     mark_child (set, changed) f = ((set ++ [Store.folder_id f])%list, true)).
Proof.
  unfold mark_child. destruct (Store.parentId f) as [parent|] eqn:Ep.
  - destruct (Text.truthy parent) eqn:Et; cbn [andb].
    + destruct (includes set parent) eqn:Ei; cbn [andb].
      * destruct (includes set (Store.folder_id f)) eqn:En; cbn [negb].
        -- left. split; [reflexivity|]. intros p _ _ _. now apply includes_In.
        -- right. exists parent. repeat split; auto.
           ++ now apply includes_In.
           ++ now apply includes_not_In.
      * left. split; [reflexivity|]. intros p [= <-] _ Hin.
        apply includes_In in Hin. congruence.
    + left. split; [reflexivity|]. intros p [= <-] Ht. congruence.
  - left. split; [reflexivity|]. intros p Hp. discriminate.
Qed.

Lemma mark_pass_grows folders :
  forall set changed set' changed',
    fold_left mark_child folders (set, changed) = (set', changed') -> incl set set'.
Proof.
  induction folders as [|f folders IH]; intros set changed set' changed' H.
  - cbn in H. injection H as <- <-. apply incl_refl.
  - cbn [fold_left] in H.
    destruct (mark_child_cases set changed f) as [[E _]|(p & _ & _ & _ & _ & E)];
      rewrite E in H; apply IH in H; [exact H|].
    intros x Hx. apply H. apply in_or_app. now left.
Qed.

Lemma mark_pass_changed folders :
  forall set set' changed',
    fold_left mark_child folders (set, true) = (set', changed') -> changed' = true.
Proof.
  induction folders as [|f folders IH]; intros set set' changed' H.
  - cbn in H. now injection H as <- <-.
  - cbn [fold_left] in H.
    destruct (mark_child_cases set true f) as [[E _]|(p & _ & _ & _ & _ & E)];
      rewrite E in H; now apply IH in H.
Qed.

(** A pass that changes nothing leaves a set closed under "child of". *)
Lemma mark_pass_quiet folders :
  forall set set',
    fold_left mark_child folders (set, false) = (set', false) ->
    set' = set /\
    forall f parent, In f folders -> Store.parentId f = Some parent ->
                     Text.truthy parent = true -> In parent set ->
                     In (Store.folder_id f) set.
Proof.
  induction folders as [|f folders IH]; intros set set' H.
  - cbn in H. injection H as <-. split; [reflexivity|]. intros f parent [].
  - cbn [fold_left] in H.
    destruct (mark_child_cases set false f) as [[E Hc]|(p & _ & _ & _ & _ & E)];
      rewrite E in H.
    + destruct (IH _ _ H) as [-> Hrest]. split; [reflexivity|].
      intros g parent [<-|Hg]; [apply Hc|now apply Hrest].
    + apply mark_pass_changed in H. discriminate.
Qed.

(** A pass that changes something marks a folder that was not marked. *)
Lemma mark_pass_progress folders :
  forall set set',
    fold_left mark_child folders (set, false) = (set', true) ->
    exists f, In f folders /\ ~ In (Store.folder_id f) set /\
              In (Store.folder_id f) set'.
Proof.
  induction folders as [|f folders IH]; intros set set' H.
  - cbn in H. discriminate.
  - cbn [fold_left] in H.
    destruct (mark_child_cases set false f) as [[E Hc]|(p & _ & _ & _ & Hn & E)];
      rewrite E in H.
    + destruct (IH _ _ H) as (g & Hg & Hng & Hig). exists g. repeat split; auto.
      now right.
    + exists f. repeat split; [now left|exact Hn|].
      apply (mark_pass_grows _ _ _ _ _ H). apply in_or_app. right. now left.
Qed.

(** Whatever a pass marks is the child of something marked. *)
Lemma mark_pass_sound folders root (all : list Store.Folder) :
  incl folders all ->
  forall set changed set' changed',
    fold_left mark_child folders (set, changed) = (set', changed') ->
    (forall x, In x set -> descends all root x) ->
    forall x, In x set' -> descends all root x.
Proof.
  intros Hall. induction folders as [|f folders IH];
    intros set changed set' changed' H Hset.
  - cbn in H. now injection H as <- <-.
  - assert (Hrest : incl folders all) by (intros g Hg; apply Hall; now right).
    cbn [fold_left] in H.
    destruct (mark_child_cases set changed f) as [[E _]|(p & Hp & Ht & Hin & _ & E)];
      rewrite E in H.
    + exact (IH Hrest _ _ _ _ H Hset).
    + apply (IH Hrest _ _ _ _ H). intros x Hx.
      apply in_app_or in Hx. destruct Hx as [Hx|[<-|[]]]; [now apply Hset|].
      apply (descends_child all root f p); auto. apply Hall. now left.
Qed.

Lemma unmarked_decreases folders set set' :
  incl set set' ->
  (exists f, In f folders /\ ~ In (Store.folder_id f) set /\ In (Store.folder_id f) set') ->
  (unmarked folders set' < unmarked folders set)%nat.
Proof.
  unfold unmarked. intros Hincl (f & Hf & Hn & Hi).
  induction folders as [|g folders IH]; [destruct Hf|].
  assert (Hle : forall l,
             (List.length (filter (fun f => negb (includes set' (Store.folder_id f))) l)
              <= List.length (filter (fun f => negb (includes set (Store.folder_id f))) l))%nat).
  { induction l as [|x l IHl]; [reflexivity|]. cbn [filter].
    destruct (includes set (Store.folder_id x)) eqn:E1.
    - apply includes_In, Hincl, includes_In in E1. rewrite E1. exact IHl.
    - destruct (includes set' (Store.folder_id x)); cbn [negb List.length]; lia. }
  cbn [filter]. destruct Hf as [->|Hf].
  - apply includes_not_In in Hn. apply includes_In in Hi. rewrite Hn, Hi.
    cbn [negb List.length]. specialize (Hle folders). lia.
  - specialize (IH Hf).
    destruct (includes set (Store.folder_id g)) eqn:E1.
    + apply includes_In, Hincl, includes_In in E1. rewrite E1. exact IH.
    + destruct (includes set' (Store.folder_id g)); cbn [negb List.length]; lia.
Qed.

Lemma unmarked_zero folders set f :
  unmarked folders set = 0%nat -> In f folders -> In (Store.folder_id f) set.
Proof.
  unfold unmarked. intros H Hf.
  destruct (includes set (Store.folder_id f)) eqn:E; [now apply includes_In|].
  assert (Hin : In f (filter (fun f => negb (includes set (Store.folder_id f))) folders))
    by (apply filter_In; split; [exact Hf|now rewrite E]).
  destruct (filter _ folders); [destruct Hin|discriminate].
Qed.

(** The loop ends within the passes allowed, on a set that holds the
    root, only descendants of it, and every child of what it holds. *)
Lemma mark_descendants_closed folders root :
  forall fuel set,
    (unmarked folders set <= fuel)%nat ->
    In root set -> (forall x, In x set -> descends folders root x) ->
    let marked := mark_descendants fuel folders set in
    In root marked /\
    (forall x, In x marked -> descends folders root x) /\
    (forall f parent, In f folders -> Store.parentId f = Some parent ->
                      Text.truthy parent = true -> In parent marked ->
                      In (Store.folder_id f) marked).
Proof.
  induction fuel as [|fuel IH]; intros set Hfuel Hroot Hsound;
    cbn [mark_descendants];
    destruct (fold_left mark_child folders (set, false)) as [set' [|]] eqn:E.
  - exfalso. destruct (mark_pass_progress _ _ _ E) as (f & Hf & Hn & _).
    apply Hn. apply (unmarked_zero folders); [lia|exact Hf].
  - destruct (mark_pass_quiet _ _ _ E) as [-> Hclosed]. cbn zeta. auto.
  - apply IH.
    + pose proof (unmarked_decreases folders set set' (mark_pass_grows _ _ _ _ _ E)
                    (mark_pass_progress _ _ _ E)). lia.
    + now apply (mark_pass_grows _ _ _ _ _ E).
    + apply (mark_pass_sound folders root folders (incl_refl _) _ _ _ _ E Hsound).
  - destruct (mark_pass_quiet _ _ _ E) as [-> Hclosed]. cbn zeta. auto.
Qed.

Lemma folderIdsToDelete_descends id prev x :
  In x (folderIdsToDelete id prev) <-> descends (Store.folders prev) id x.
Proof.
  unfold folderIdsToDelete.
  destruct (mark_descendants_closed (Store.folders prev) id
              (List.length (Store.folders prev)) [id]) as (Hroot & Hsound & Hclosed).
  - unfold unmarked. apply filter_length_le.
  - now left.
  - intros y [<-|[]]. constructor.
  - split; [apply Hsound|].
    intros H. induction H as [|f parent Hf Hp Ht _ IH]; [exact Hroot|].
    now apply (Hclosed f parent).
Qed.

Lemma get_key_unfile id key map :
  get_key key (List.map (unfile id) map)
  = match get_key key map with
    | Some (Some folderId) => if String.eqb folderId id then Some None
                              else Some (Some folderId)
    | other => other
    end.
Proof.
  induction map as [|[k v] map IH]; [reflexivity|].
  cbn [List.map get_key]. unfold unfile at 1. cbn [fst snd].
  destruct v as [folderId|].
  - destruct (String.eqb folderId id) eqn:E; cbn [get_key fst snd];
      destruct (String.eqb k key); rewrite ?E; auto.
  - cbn [get_key]. destruct (String.eqb k key); auto.
Qed.

(** X24: [deleteFolder] removes the folder together with every folder below
    it, however deep, and nothing else, the remaining folders keeping
    their order; the scripts stay, and those filed directly under the
    deleted folder are unfiled.  A script filed under a folder below the
    deleted one keeps its entry, which then names a folder that is
    gone. *)
Theorem delete_folder_removes_descendants id prev :
  let next := deleteFolder id prev in
  (forall f, In f (Store.folders next)
             <-> In f (Store.folders prev)
                 /\ ~ descends (Store.folders prev) id (Store.folder_id f)) /\
  (exists keep, Store.folders next = filter keep (Store.folders prev)) /\
  (forall f parent, In f (Store.folders next) -> Store.parentId f = Some parent ->
                    Text.truthy parent = true ->
                    ~ descends (Store.folders prev) id parent) /\
  Store.scripts next = Store.scripts prev /\
  (forall key,
     get_key key (Store.scriptFolderMap next)
     = match get_key key (Store.scriptFolderMap prev) with
       | Some (Some folderId) => if String.eqb folderId id then Some None
                                 else Some (Some folderId)
       | other => other
       end).
Proof.
  cbn zeta. unfold deleteFolder. cbn [Store.folders Store.scripts Store.scriptFolderMap].
  assert (Hin : forall f,
             In f (filter (fun f => negb (includes (folderIdsToDelete id prev)
                                                   (Store.folder_id f)))
                          (Store.folders prev))
             <-> In f (Store.folders prev)
                 /\ ~ descends (Store.folders prev) id (Store.folder_id f)).
  { intros f. rewrite filter_In, negb_true_iff, includes_not_In.
    now rewrite folderIdsToDelete_descends. }
  split; [exact Hin|]. split; [eexists; reflexivity|].
  split; [|split; [reflexivity|intros key; apply get_key_unfile]].
  intros f parent Hf Hp Ht Hd. apply Hin in Hf. destruct Hf as [Hf Hn].
  apply Hn. now apply (descends_child _ _ f parent).
Qed.

Lemma delete_folder_removes_descendants_witness :
  ~ descends (Store.folders nested_folders) "f1" "g".
Proof.
  apply (proj1 (delete_folder_removes_descendants "f1" nested_folders)
               (a_folder "g" None)).
  simpl. auto.
Defined.

(** ** Duplicating a script *)

Lemma of_Z_inj a b : Text.of_Z a = Text.of_Z b -> a = b.
Proof.
  unfold Text.of_Z. intros H. apply DecimalZ.to_int_inj.
  assert (Hnn : forall z, Z.to_int z <> Decimal.Pos Decimal.Nil
                          /\ Z.to_int z <> Decimal.Neg Decimal.Nil).
  { intros [|p|p]; cbn; split; try discriminate; intros [= E];
      now apply (DecimalPos.Unsigned.to_uint_nonnil p). }
  assert (Hs : Some (Z.to_int a) = Some (Z.to_int b)).
  { rewrite <- (NilZero.isi (Z.to_int a)), <- (NilZero.isi (Z.to_int b));
      try apply Hnn. now rewrite H. }
  congruence.
Qed.

Lemma append_cancel_l (p a b : string) : p ++ a = p ++ b -> a = b.
Proof. induction p as [|c p IH]; cbn; [auto|]. intros [= H]. auto. Qed.

Lemma append_length (a b : string) :
  String.length (a ++ b) = (String.length a + String.length b)%nat.
Proof. induction a as [|c a IH]; cbn; [reflexivity|]. now rewrite IH. Qed.

Lemma append_cancel_r (a b c : string) : a ++ c = b ++ c -> a = b.
Proof.
  intros H.
  assert (Hl : String.length a = String.length b).
  { apply (f_equal String.length) in H. rewrite !append_length in H. lia. }
  revert b H Hl. induction a as [|x a IH]; intros [|y b] H Hl; cbn in *;
    try discriminate; [reflexivity|].
  injection H as -> H. f_equal. apply IH; [exact H|lia].
Qed.

Lemma numbered_inj baseName i j : numbered baseName i = numbered baseName j -> i = j.
Proof.
  unfold numbered. intros H. apply append_cancel_l in H. cbn [append] in H.
  injection H as H. apply append_cancel_r, of_Z_inj in H. lia.
Qed.

Lemma startsWith_app start rest : startsWith (start ++ rest) start = true.
Proof.
  induction start as [|c start IH]; [destruct rest; reflexivity|].
  cbn. now rewrite Ascii.eqb_refl, IH.
Qed.

Lemma numbered_startsWith baseName i :
  startsWith (numbered baseName i) (baseName ++ " (") = true.
Proof.
  unfold numbered.
  change (baseName ++ " (" ++ Text.of_Z (Z.of_nat i) ++ ")")
    with (baseName ++ (" (" ++ (Text.of_Z (Z.of_nat i) ++ ")"))).
  rewrite <- string_app_assoc. apply startsWith_app.
Qed.

Lemma numbered_run_NoDup baseName first n :
  NoDup (map (numbered baseName) (seq first n)).
Proof.
  revert first. induction n as [|n IH]; intros first; cbn [seq map]; constructor.
  - intros H. apply in_map_iff in H. destruct H as [j [Hj Hin]].
    apply numbered_inj in Hj. apply in_seq in Hin. lia.
  - apply IH.
Qed.

(** The loop stops within the turns allowed, on a counter whose name is
    free. *)
Lemma free_counter_free existingNames baseName :
  forall fuel counter,
    (forall j, (1 <= j < counter)%nat -> In (numbered baseName j) existingNames) ->
    (List.length existingNames <= counter - 1 + fuel)%nat ->
    (1 <= counter)%nat ->
    includes existingNames
             (numbered baseName (free_counter fuel existingNames baseName counter))
    = false.
Proof.
  induction fuel as [|fuel IH]; intros counter Hrun Hlen Hpos; cbn [free_counter];
    destruct (includes existingNames (numbered baseName counter)) eqn:E;
    try exact E.
  - exfalso. apply includes_In in E.
    assert (Hincl : incl (map (numbered baseName) (seq 1 counter)) existingNames).
    { intros x Hx. apply in_map_iff in Hx. destruct Hx as [j [<- Hj]].
      apply in_seq in Hj. destruct (Nat.eq_dec j counter) as [->|Hne]; [exact E|].
      apply Hrun. lia. }
    apply NoDup_incl_length in Hincl; [|apply numbered_run_NoDup].
    rewrite length_map, length_seq in Hincl. lia.
  - apply IH; [|lia|lia]. intros j Hj. apply includes_In in E.
    destruct (Nat.eq_dec j counter) as [->|Hne]; [exact E|]. apply Hrun. lia.
Qed.

(** X25: The copy [duplicateScript] adds never takes the name of a script
    that is already there; it goes to the end of the list, the scripts
    before it untouched, carries the code, language and parameters of
    the original under the new id, and is filed where the original is
    filed. *)
Theorem duplicate_gets_a_fresh_name script newId now st :
  let next := duplicateScript script newId now st in
  exists copy,
    Store.scripts next = (Store.scripts st ++ [copy])%list /\
    ~ In (Store.script_name copy) (map Store.script_name (Store.scripts st)) /\
    Store.script_id copy = newId /\
    Store.code copy = Store.code script /\
    Store.language copy = Store.language script /\
    Store.inputs copy = Store.inputs script /\
    get_key newId (Store.scriptFolderMap next)
    = Some match get_key (Store.script_id script) (Store.scriptFolderMap st) with
           | Some folder => folder
           | None => None
           end.
Proof.
  cbn zeta. exists (duplicate_of script newId now st).
  split; [reflexivity|]. split; [|repeat split; apply set_key_same].
  cbn [duplicate_of Store.script_name]. unfold duplicate_name.
  set (baseName := strip_counter (Store.script_name script)).
  assert (Hex : forall name,
             In name (map Store.script_name (Store.scripts st)) ->
             name = baseName \/ startsWith name (baseName ++ " (") = true ->
             In name (existing_names baseName st)).
  { intros name Hin Hc. apply filter_In. split; [exact Hin|].
    apply orb_true_iff. destruct Hc as [->|Hc]; [left; apply String.eqb_refl|now right]. }
  destruct (existing_names baseName st) as [|first others] eqn:E.
  - intros Hin. apply (Hex baseName Hin). now left.
  - intros Hin.
    pose proof (free_counter_free (first :: others) baseName
                  (List.length (first :: others)) 1) as Hfree.
    rewrite includes_not_In in Hfree. apply Hfree; try lia.
    apply (Hex _ Hin). right. apply numbered_startsWith.
Qed.


Example strip_counter_samples :
  strip_counter "Build (2)" = "Build" /\
  strip_counter "Build   (12)" = "Build" /\
  strip_counter "Build (1) (2)" = "Build (1)" /\
  strip_counter "Build ()" = "Build ()" /\
  strip_counter "Build (2) " = "Build (2) " /\
  strip_counter "Build (v2)" = "Build (v2)" /\
  strip_counter "(7)" = EmptyString.
Proof. repeat split. Qed.

Example duplicate_names :
  duplicate_name (a_script "a" "Build") three_scripts = "Build (1)" /\
  duplicate_name (a_script "x" "Build (1)")
    {| Store.scripts := [a_script "a" "Build"; a_script "x" "Build (1)";
                         a_script "y" "Build (3)"];
       Store.folders := []; Store.scriptFolderMap := [] |} = "Build (2)" /\
  duplicate_name (a_script "n" "New") three_scripts = "New".
Proof. repeat split. Qed.

(** ** What the folder map files *)

Lemma get_key_remove_same {V} key (map : list (string * V)) :
  get_key key (remove_key key map) = None.
Proof.
  induction map as [|[k v] map IH]; [reflexivity|]. cbn [remove_key].
  destruct (String.eqb k key) eqn:E; [exact IH|]. cbn [get_key]. now rewrite E.
Qed.

Lemma get_key_remove_other {V} key other (map : list (string * V)) :
  other <> key -> get_key other (remove_key key map) = get_key other map.
Proof.
  intros Hn. induction map as [|[k v] map IH]; [reflexivity|]. cbn [remove_key get_key].
  destruct (String.eqb_spec k key) as [->|Hk].
  - destruct (String.eqb_spec key other); [congruence|exact IH].
  - cbn [get_key]. destruct (String.eqb k other); [reflexivity|exact IH].
Qed.



(** X27: The store keeps its folder map about its own scripts: when every id
    filed names a script, that is still so after deleting a script,
    duplicating one, moving one next to another, reordering, deleting a
    folder, and after filing a script that exists. *)
Theorem filed_ids_keep_existing st :
  filed_ids_exist st ->
  (forall id, filed_ids_exist (deleteScript id st)) /\
  (forall script newId now, filed_ids_exist (duplicateScript script newId now st)) /\
  (forall scriptId folderId targetId pos,
     filed_ids_exist (moveScriptToFolderAtPosition scriptId folderId targetId pos st)) /\
  (forall ids, filed_ids_exist (reorderScripts ids st)) /\
  (forall id, filed_ids_exist (deleteFolder id st)) /\
  (forall scriptId folderId,
     In scriptId (map Store.script_id (Store.scripts st)) ->
     filed_ids_exist (moveScriptToFolder scriptId folderId st)).
Proof.
  intros Hst. repeat split.
  - intros id key Hk. cbn [deleteScript Store.scripts Store.scriptFolderMap] in *.
    destruct (String.eqb_spec key id) as [->|Hne].
    + rewrite get_key_remove_same in Hk. congruence.
    + rewrite get_key_remove_other in Hk by exact Hne.
      apply in_ids_filter; [exact Hne|]. now apply Hst.
  - intros script newId now key Hk.
    cbn [duplicateScript Store.scripts Store.scriptFolderMap] in *.
    rewrite map_app. apply in_or_app.
    destruct (String.eqb_spec key newId) as [->|Hne]; [right; now left|].
    left. apply Hst. now rewrite set_key_other in Hk by exact Hne.
  - intros scriptId folderId targetId pos key Hk.
    destruct (in_dec string_dec scriptId (map Store.script_id (Store.scripts st)))
      as [Hin|Hout].
    + assert (Hmap : Store.scriptFolderMap
                       (moveScriptToFolderAtPosition scriptId folderId targetId pos st)
                     = set_key (Store.scriptFolderMap st) scriptId folderId).
      { unfold moveScriptToFolderAtPosition.
        destruct (find _ (Store.scripts st)) eqn:E.
        - destruct (findIndex _ _); reflexivity.
        - exfalso. apply in_map_iff in Hin. destruct Hin as [s [Hs Hin]].
          apply (find_none _ _ E) in Hin. rewrite Hs, String.eqb_refl in Hin.
          discriminate. }
      assert (Hids : forall k, In k (map Store.script_id (Store.scripts st)) ->
                               In k (map Store.script_id
                                       (Store.scripts
                                          (moveScriptToFolderAtPosition
                                             scriptId folderId targetId pos st)))).
      { intros k Hk'. unfold moveScriptToFolderAtPosition.
        destruct (find _ (Store.scripts st)) as [m|] eqn:E; [|exact Hk'].
        apply find_some in E. destruct E as [Hm He]. apply String.eqb_eq in He.
        assert (Hothers : k <> scriptId ->
                          In k (map Store.script_id
                                  (filter (fun s => negb (String.eqb (Store.script_id s)
                                                                     scriptId))
                                          (Store.scripts st))))
          by (intros Hne; now apply in_ids_filter).
        destruct (findIndex _ _) as [i|]; cbn [Store.scripts].
        - rewrite map_app. cbn [map]. destruct (string_dec k scriptId) as [->|Hne].
          + apply in_or_app. right. left. exact He.
          + specialize (Hothers Hne).
            rewrite <- (firstn_skipn
                          (match pos with
                           | Store.before => i
                           | Store.after => (i + 1)%nat
                           end)
                          (filter _ (Store.scripts st))), map_app in Hothers.
            apply in_app_or in Hothers. apply in_or_app.
            destruct Hothers as [H|H]; [now left|right; right; exact H].
        - rewrite map_app. cbn [map]. apply in_or_app.
          destruct (string_dec k scriptId) as [->|Hne]; [right; left; exact He|].
          left. now apply Hothers. }
      apply Hids. rewrite Hmap in Hk.
      destruct (String.eqb_spec key scriptId) as [->|Hne]; [exact Hin|].
      apply Hst. now rewrite set_key_other in Hk by exact Hne.
    + unfold moveScriptToFolderAtPosition in *.
      destruct (find _ (Store.scripts st)) as [m|] eqn:E; [|now apply Hst].
      exfalso. apply find_some in E. destruct E as [Hm He].
      apply String.eqb_eq in He. apply Hout. rewrite <- He. now apply in_map.
  - intros ids key Hk. cbn [reorderScripts Store.scripts Store.scriptFolderMap] in *.
    rewrite reorder_ids. apply in_or_app. specialize (Hst key Hk).
    destruct (includes ids key) eqn:E.
    + left. apply filter_In. split; [now apply includes_In|now apply includes_In].
    + right. apply filter_In. split; [exact Hst|now rewrite E].
  - intros id key Hk. cbn [deleteFolder Store.scripts Store.scriptFolderMap] in *.
    apply Hst. rewrite get_key_unfile in Hk.
    destruct (get_key key (Store.scriptFolderMap st)); [discriminate|congruence].
  - intros scriptId folderId Hin key Hk.
    cbn [moveScriptToFolder Store.scripts Store.scriptFolderMap] in *.
    destruct (String.eqb_spec key scriptId) as [->|Hne]; [exact Hin|].
    apply Hst. now rewrite set_key_other in Hk by exact Hne.
Qed.

Lemma filed_ids_keep_existing_witness :
  filed_ids_exist (deleteScript "b" three_scripts).
Proof.
  apply (filed_ids_keep_existing three_scripts).
  intros key Hk. cbn [three_scripts Store.scriptFolderMap get_key] in Hk.
  destruct (String.eqb "b" key) eqn:E; [|congruence].
  apply String.eqb_eq in E. subst key. simpl. auto.
Defined.
